(** * Shadow Pad: the confidential token sale ledger and its registry

    A shallow embedding of [contracts/ConfidentialTokenFactory.sol] and
    [contracts/ConfidentialERC7984Token.sol].  Unsigned machine integers are
    integers of [Z] together with their range, storage mappings are finite
    maps, and a Solidity function is a computation over the world it runs in
    that either returns or reverts. *)

From stdpp Require Import base option numbers countable gmap list strings.
From Stdlib Require Import ZArith Lia.

Local Open Scope Z_scope.

(** ** Machine integers and identities *)

Definition address := N.

Definition address0 : address := 0%N.

Definition UINT64_MAX : Z := 2 ^ 64 - 1.
Definition UINT256_MAX : Z := 2 ^ 256 - 1.

Definition is_uint64 (z : Z) : Prop := 0 <= z <= UINT64_MAX.
Definition is_uint256 (z : Z) : Prop := 0 <= z <= UINT256_MAX.

(** ** Failures

    The custom errors declared by the token, the ones of the mixins it
    inherits ([Ownable], [ReentrancyGuard], [ERC7984]) and the compiler's
    arithmetic panics. *)

Inductive PanicCode : Type :=
| UNDER_OVERFLOW
| DIVISION_BY_ZERO.

Inductive Error : Type :=
| InvalidAmount
| SoldOut
| InsufficientPayment (requiredWei paidWei : Z)
| RefundFailed
| InvalidWithdraw
| OwnableUnauthorizedAccount (account : address)
| OwnableInvalidOwner (owner : address)
| ReentrancyGuardReentrantCall
| ERC7984InvalidSender (sender : address)
| ERC7984InvalidReceiver (receiver : address)
| ERC7984ZeroBalance (holder : address)
| Panic (code : PanicCode).

Inductive Outcome (A : Type) : Type :=
| Return (a : A)
| Revert (e : Error).

Arguments Return {A} a.
Arguments Revert {A} e.

Definition obind {A B : Type} (c : Outcome A) (k : A -> Outcome B) : Outcome B :=
  match c with
  | Return a => k a
  | Revert e => Revert e
  end.

(** Checked arithmetic of Solidity 0.8 on [uint256] and [uint64]. *)

Definition checked_add256 (a b : Z) : Outcome Z :=
  if a + b <=? UINT256_MAX then Return (a + b) else Revert (Panic UNDER_OVERFLOW).

Definition checked_sub256 (a b : Z) : Outcome Z :=
  if b <=? a then Return (a - b) else Revert (Panic UNDER_OVERFLOW).

Definition checked_sub64 (a b : Z) : Outcome Z :=
  if b <=? a then Return (a - b) else Revert (Panic UNDER_OVERFLOW).

(** ** OpenZeppelin [Math]

    [mulDiv] follows the library: the 512-bit product is split in a high and
    a low word; a zero high word is the plain division, a high word that
    reaches the denominator is the overflow (or division by zero) panic, and
    otherwise the result is the exact quotient. *)

Module Math.

Inductive Rounding : Type := Floor | Ceil | Trunc | Expand.

Definition unsignedRoundsUp (r : Rounding) : bool :=
  match r with
  | Ceil | Expand => true
  | Floor | Trunc => false
  end.

Definition mul512 (x y : Z) : Z * Z :=
  ((x * y) / 2 ^ 256, (x * y) mod 2 ^ 256).

Definition mulmod (x y d : Z) : Z := (x * y) mod d.

Definition mulDiv (x y denominator : Z) : Outcome Z :=
  let '(high, low) := mul512 x y in
  if high =? 0 then
    if denominator =? 0 then Revert (Panic DIVISION_BY_ZERO)
    else Return (low / denominator)
  else if denominator <=? high then
    Revert (Panic (if denominator =? 0 then DIVISION_BY_ZERO else UNDER_OVERFLOW))
  else Return ((x * y) / denominator).

Definition mulDivR (x y denominator : Z) (rounding : Rounding) : Outcome Z :=
  obind (mulDiv x y denominator) (fun q =>
    checked_add256 q
      (if unsignedRoundsUp rounding && (0 <? mulmod x y denominator)
       then 1 else 0)).

End Math.

(** ** Encrypted integers

    An [euint64] handle is modelled by the clear value it encrypts; the
    ledger only ever passes handles on.  An uninitialised handle is [None].
    Homomorphic addition and subtraction wrap modulo [2 ^ 64]. *)

Module FHE.

Definition euint64 := option Z.

Definition asEuint64 (v : Z) : euint64 := Some v.

Definition isInitialized (h : euint64) : bool :=
  match h with Some _ => true | None => false end.

Definition clear (h : euint64) : Z := default 0 h.

Definition add (a b : euint64) : euint64 :=
  Some ((clear a + clear b) mod 2 ^ 64).

Definition sub (a b : euint64) : euint64 :=
  Some ((clear a - clear b) mod 2 ^ 64).

Definition ge (a b : euint64) : bool := clear b <=? clear a.

Definition eq (a b : euint64) : bool := clear a =? clear b.

Definition select (c : bool) (a b : euint64) : euint64 := if c then a else b.

End FHE.

(** Overflow- and underflow-safe updates of an encrypted balance: the
    update is applied when it fits, and the flag says whether it was. *)
Module FHESafeMath.
Import FHE.

Definition tryIncrease (oldValue delta : euint64) : bool * euint64 :=
  if negb (isInitialized oldValue) then (true, delta)
  else
    let newValue := add oldValue delta in
    let success := ge newValue oldValue in
    (success, select success newValue oldValue).

Definition tryDecrease (oldValue delta : euint64) : bool * euint64 :=
  if negb (isInitialized oldValue) then
    if negb (isInitialized delta) then (true, oldValue)
    else (eq delta (asEuint64 0), asEuint64 0)
  else
    let success := ge oldValue delta in
    (success, select success (sub oldValue delta) oldValue).

End FHESafeMath.

(** ** The world a ledger runs in *)

Inductive Event : Type :=
| TokenPurchased (buyer : address) (amount requiredWei paidWei : Z)
| PriceUpdated (oldPricePerTokenWei newPricePerTokenWei : Z)
| Withdrawn (to : address) (amountWei : Z)
| ConfidentialTransfer (from to : address) (transferred : FHE.euint64)
| OwnershipTransferred (previousOwner newOwner : address).

Inductive GuardStatus : Type := NOT_ENTERED | ENTERED.

(** The storage of one [ConfidentialERC7984Token], inherited slots included. *)
Record Storage : Type := mkStorage {
  _name : string;
  _symbol : string;
  _contractURI : string;
  totalSupplyClear : Z;
  remainingForSaleClear : Z;
  pricePerTokenWei : Z;
  _owner : address;
  _status : GuardStatus;
  _balances : gmap address Z;
  _totalSupply : FHE.euint64
}.

(** The ledger's own address, its storage, the native balance of every
    account, which accounts take a plain value transfer (an account without
    code always does; one whose code has no payable [receive] does not), and
    the events emitted so far. *)
Record World : Type := mkWorld {
  this : address;
  storage : Storage;
  balance : gmap address Z;
  accepts : address -> bool;
  logs : list Event
}.

Record Msg : Type := mkMsg {
  sender : address;
  value : Z
}.

Definition balanceOf (w : World) (a : address) : Z := default 0 (balance w !! a).

Definition confidentialBalanceOf (w : World) (a : address) : FHE.euint64 :=
  _balances (storage w) !! a.

Definition with_storage (f : Storage -> Storage) (w : World) : World :=
  mkWorld (this w) (f (storage w)) (balance w) (accepts w) (logs w).

Definition set_metadata (n s u : string) (st : Storage) : Storage :=
  mkStorage n s u (totalSupplyClear st) (remainingForSaleClear st)
    (pricePerTokenWei st) (_owner st) (_status st) (_balances st) (_totalSupply st).

Definition set_totalSupplyClear (v : Z) (st : Storage) : Storage :=
  mkStorage (_name st) (_symbol st) (_contractURI st) v (remainingForSaleClear st)
    (pricePerTokenWei st) (_owner st) (_status st) (_balances st) (_totalSupply st).

Definition set_remainingForSaleClear (v : Z) (st : Storage) : Storage :=
  mkStorage (_name st) (_symbol st) (_contractURI st) (totalSupplyClear st) v
    (pricePerTokenWei st) (_owner st) (_status st) (_balances st) (_totalSupply st).

Definition set_pricePerTokenWei (v : Z) (st : Storage) : Storage :=
  mkStorage (_name st) (_symbol st) (_contractURI st) (totalSupplyClear st)
    (remainingForSaleClear st) v (_owner st) (_status st) (_balances st) (_totalSupply st).

Definition set_owner (o : address) (st : Storage) : Storage :=
  mkStorage (_name st) (_symbol st) (_contractURI st) (totalSupplyClear st)
    (remainingForSaleClear st) (pricePerTokenWei st) o (_status st) (_balances st)
    (_totalSupply st).

Definition set_status (g : GuardStatus) (st : Storage) : Storage :=
  mkStorage (_name st) (_symbol st) (_contractURI st) (totalSupplyClear st)
    (remainingForSaleClear st) (pricePerTokenWei st) (_owner st) g (_balances st)
    (_totalSupply st).

Definition store_handle (a : address) (h : FHE.euint64) (m : gmap address Z) : gmap address Z :=
  match h with
  | Some v => <[a := v]> m
  | None => delete a m
  end.

Definition set_balance (a : address) (h : FHE.euint64) (st : Storage) : Storage :=
  mkStorage (_name st) (_symbol st) (_contractURI st) (totalSupplyClear st)
    (remainingForSaleClear st) (pricePerTokenWei st) (_owner st) (_status st)
    (store_handle a h (_balances st)) (_totalSupply st).

Definition set_totalSupply (h : FHE.euint64) (st : Storage) : Storage :=
  mkStorage (_name st) (_symbol st) (_contractURI st) (totalSupplyClear st)
    (remainingForSaleClear st) (pricePerTokenWei st) (_owner st) (_status st)
    (_balances st) h.

Definition push_log (e : Event) (w : World) : World :=
  mkWorld (this w) (storage w) (balance w) (accepts w) (logs w ++ [e]).

(** Moves [v] of native value from [a] to [b]. *)
Definition move_value (a b : address) (v : Z) (w : World) : World :=
  let debited := <[a := balanceOf w a - v]> (balance w) in
  let credited := <[b := default 0 (debited !! b) + v]> debited in
  mkWorld (this w) (storage w) credited (accepts w) (logs w).

(** ** Computations

    A function body threads the world and stops at the first revert.  The
    world reached at a revert is kept by [M], so that the roll-back is a
    step of its own ([transact]) and not an artefact of the monad. *)

Definition M (A : Type) : Type := World -> Outcome A * World.

Global Instance M_ret : MRet M := fun A (a : A) (w : World) => (Return a, w).

Global Instance M_bind : MBind M := fun A B (k : A -> M B) (c : M A) (w : World) =>
  match c w with
  | (Return a, w') => k a w'
  | (Revert e, w') => (Revert e, w')
  end.

Definition revert {A : Type} (e : Error) : M A := fun w => (Revert e, w).

Definition lift {A : Type} (o : Outcome A) : M A := fun w => (o, w).

Definition gets {A : Type} (f : World -> A) : M A := fun w => (Return (f w), w).

Definition modify (f : World -> World) : M unit := fun w => (Return tt, f w).

Definition sload {A : Type} (f : Storage -> A) : M A := gets (fun w => f (storage w)).

Definition sstore (f : Storage -> Storage) : M unit := modify (with_storage f).

Definition emit (e : Event) : M unit := modify (push_log e).

Definition require (b : bool) (e : Error) : M unit :=
  if b then mret tt else revert e.

(** [to.call{value: v}("")]: the transfer happens when the ledger holds [v]
    and the recipient takes it; the call reports failure otherwise.  The
    recipient's code is not part of the ledger: what it does with the
    control it is given is summed up by whether it takes the value.  It
    cannot re-enter [buy] or [withdraw], which [nonReentrant] turns away
    while the guard is taken. *)
Definition call_value (to : address) (v : Z) : M bool := fun w =>
  if (v <=? balanceOf w (this w)) && accepts w to
  then (Return true, move_value (this w) to v w)
  else (Return false, w).

(** An external call is one transaction frame: a revert discards every
    change made since the frame was entered, the value attached to the call
    included. *)
Definition transact {A : Type} (c : M A) (w : World) : Outcome A * World :=
  match c w with
  | (Return a, w') => (Return a, w')
  | (Revert e, _) => (Revert e, w)
  end.

Definition receive_value (msg : Msg) : M unit := fun w =>
  (Return tt, move_value (sender msg) (this w) (value msg) w).

(** ** Mixins: [Ownable] and [ReentrancyGuard]

    The OpenZeppelin contracts the token inherits, after their sources. *)

Definition _checkOwner (caller : address) : M unit :=
  o ← sload _owner;
  require (bool_decide (o = caller)) (OwnableUnauthorizedAccount caller).

Definition onlyOwner {A : Type} (caller : address) (body : M A) : M A :=
  _checkOwner caller;; body.

Definition _transferOwnership (newOwner : address) : M unit :=
  oldOwner ← sload _owner;
  sstore (set_owner newOwner);;
  emit (OwnershipTransferred oldOwner newOwner).

Definition Ownable_constructor (initialOwner : address) : M unit :=
  require (negb (bool_decide (initialOwner = address0))) (OwnableInvalidOwner address0);;
  _transferOwnership initialOwner.

Definition _nonReentrantBefore : M unit :=
  st ← sload _status;
  match st with
  | ENTERED => revert ReentrancyGuardReentrantCall
  | NOT_ENTERED => sstore (set_status ENTERED)
  end.

Definition _nonReentrantAfter : M unit := sstore (set_status NOT_ENTERED).

Definition nonReentrant {A : Type} (body : M A) : M A :=
  _nonReentrantBefore;;
  r ← body;
  _nonReentrantAfter;;
  mret r.

Definition transferOwnership (caller newOwner : address) : M unit :=
  transact (onlyOwner caller
    (require (negb (bool_decide (newOwner = address0))) (OwnableInvalidOwner address0);;
     _transferOwnership newOwner)).

Definition renounceOwnership (caller : address) : M unit :=
  transact (onlyOwner caller (_transferOwnership address0)).

(** ** [ERC7984]: the confidential balance table

    The part of OpenZeppelin's confidential token the ledger uses: [_update]
    moves an encrypted amount between two balances without revealing whether
    the holder could afford it (an unaffordable amount moves as zero), and
    [_mint] and [_transfer] guard it against the null address. *)

Definition _update (from to : address) (amount : FHE.euint64) : M FHE.euint64 :=
  success ← (if bool_decide (from = address0) then
               ts ← sload _totalSupply;
               let '(success, ptr) := FHESafeMath.tryIncrease ts amount in
               sstore (set_totalSupply ptr);;
               mret success
             else
               fromBalance ← sload (fun st => _balances st !! from);
               require (FHE.isInitialized fromBalance) (ERC7984ZeroBalance from);;
               let '(success, ptr) := FHESafeMath.tryDecrease fromBalance amount in
               sstore (set_balance from ptr);;
               mret success);
  let transferred := FHE.select success amount (FHE.asEuint64 0) in
  (if bool_decide (to = address0) then
     ts ← sload _totalSupply;
     sstore (set_totalSupply (FHE.sub ts transferred))
   else
     toBalance ← sload (fun st => _balances st !! to);
     sstore (set_balance to (FHE.add toBalance transferred)));;
  emit (ConfidentialTransfer from to transferred);;
  mret transferred.

Definition _mint (to : address) (amount : FHE.euint64) : M FHE.euint64 :=
  require (negb (bool_decide (to = address0))) (ERC7984InvalidReceiver address0);;
  _update address0 to amount.

Definition _transfer (from to : address) (amount : FHE.euint64) : M FHE.euint64 :=
  require (negb (bool_decide (from = address0))) (ERC7984InvalidSender address0);;
  require (negb (bool_decide (to = address0))) (ERC7984InvalidReceiver address0);;
  _update from to amount.

Definition ERC7984_constructor (name_ symbol_ contractURI_ : string) : M unit :=
  sstore (set_metadata name_ symbol_ contractURI_).

(** [confidentialTransfer(to, amount)], the holder's own transfer. *)
Definition confidentialTransfer (caller to : address) (amount : Z) : M FHE.euint64 :=
  transact (_transfer caller to (FHE.asEuint64 amount)).

(** ** [ConfidentialERC7984Token] *)

Definition TOKEN_BASE : Z := 1000000.

Definition constructor (name_ symbol_ : string) (totalSupply_ pricePerTokenWei_ : Z)
    (contractURI_ : string) (owner_ : address) : M unit :=
  ERC7984_constructor name_ symbol_ contractURI_;;
  Ownable_constructor owner_;;
  sstore (set_status NOT_ENTERED);;
  require (negb (totalSupply_ =? 0)) InvalidAmount;;
  sstore (set_totalSupplyClear totalSupply_);;
  sstore (set_remainingForSaleClear totalSupply_);;
  sstore (set_pricePerTokenWei pricePerTokenWei_);;
  self ← gets this;
  _mint self (FHE.asEuint64 totalSupply_);;
  mret tt.

Definition quoteBuy (amount : Z) : M Z :=
  if amount =? 0 then mret 0
  else
    price ← sload pricePerTokenWei;
    if price =? 0 then mret 0
    else lift (Math.mulDivR amount price TOKEN_BASE Math.Ceil).

Definition buy_body (msg : Msg) (amount : Z) : M FHE.euint64 :=
  require (negb (amount =? 0)) InvalidAmount;;
  remaining ← sload remainingForSaleClear;
  require (negb (remaining <? amount)) SoldOut;;
  requiredWei ← quoteBuy amount;
  require (negb (value msg <? requiredWei)) (InsufficientPayment requiredWei (value msg));;
  remaining' ← sload remainingForSaleClear;
  decremented ← lift (checked_sub64 remaining' amount);
  sstore (set_remainingForSaleClear decremented);;
  self ← gets this;
  transferred ← _transfer self (sender msg) (FHE.asEuint64 amount);
  refund ← lift (checked_sub256 (value msg) requiredWei);
  (if 0 <? refund then
     ok ← call_value (sender msg) refund;
     require ok RefundFailed
   else mret tt);;
  emit (TokenPurchased (sender msg) amount requiredWei (value msg));;
  mret transferred.

Definition buy (msg : Msg) (amount : Z) : M FHE.euint64 :=
  transact (receive_value msg;; nonReentrant (buy_body msg amount)).

Definition setPricePerTokenWei_body (newPricePerTokenWei : Z) : M unit :=
  old ← sload pricePerTokenWei;
  emit (PriceUpdated old newPricePerTokenWei);;
  sstore (set_pricePerTokenWei newPricePerTokenWei).

Definition setPricePerTokenWei (caller : address) (newPricePerTokenWei : Z) : M unit :=
  transact (onlyOwner caller (setPricePerTokenWei_body newPricePerTokenWei)).

Definition withdraw_body (to : address) (amountWei : Z) : M unit :=
  require (negb (bool_decide (to = address0) || (amountWei =? 0))) InvalidWithdraw;;
  self ← gets this;
  held ← gets (fun w => balanceOf w self);
  require (negb (held <? amountWei)) InvalidWithdraw;;
  ok ← call_value to amountWei;
  require ok InvalidWithdraw;;
  emit (Withdrawn to amountWei).

Definition withdraw (caller to : address) (amountWei : Z) : M unit :=
  transact (onlyOwner caller (nonReentrant (withdraw_body to amountWei))).

(** Storage before the constructor runs: every slot is zero. *)
Definition empty_storage : Storage :=
  mkStorage "" "" "" 0 0 0 address0 NOT_ENTERED ∅ None.

(** A message as the chain delivers it: a real caller, which is never the
    ledger itself (no function of the ledger calls the ledger), and an
    attached value in the [uint256] range that the caller holds. *)
Definition valid_msg (w : World) (msg : Msg) : Prop :=
  sender msg ≠ address0 ∧ sender msg ≠ this w ∧ is_uint256 (value msg) ∧
  value msg <= balanceOf w (sender msg).

Definition valid_caller (w : World) (caller : address) : Prop :=
  caller ≠ address0 ∧ caller ≠ this w.

(** The worlds a ledger can be in: deployed by its constructor at an address
    that holds no negative value, then driven by external calls to the
    functions the token declares and to the inherited holder transfer and
    ownership functions. *)
Inductive reachable : World -> Prop :=
| reach_deploy self bal acc name_ symbol_ supply price uri owner_ w :
    is_uint64 supply -> is_uint256 price ->
    0 <= default 0 (bal !! self) ->
    transact (constructor name_ symbol_ supply price uri owner_)
      (mkWorld self empty_storage bal acc []) = (Return tt, w) ->
    reachable w
| reach_buy w msg amount r w' :
    reachable w -> valid_msg w msg -> is_uint64 amount ->
    buy msg amount w = (r, w') ->
    reachable w'
| reach_setPrice w caller newPrice r w' :
    reachable w -> valid_caller w caller -> is_uint256 newPrice ->
    setPricePerTokenWei caller newPrice w = (r, w') ->
    reachable w'
| reach_withdraw w caller to amountWei r w' :
    reachable w -> valid_caller w caller -> is_uint256 amountWei ->
    withdraw caller to amountWei w = (r, w') ->
    reachable w'
| reach_confidentialTransfer w caller to amount r w' :
    reachable w -> valid_caller w caller -> is_uint64 amount ->
    confidentialTransfer caller to amount w = (r, w') ->
    reachable w'
| reach_transferOwnership w caller newOwner r w' :
    reachable w -> valid_caller w caller ->
    transferOwnership caller newOwner w = (r, w') ->
    reachable w'
| reach_renounceOwnership w caller r w' :
    reachable w -> valid_caller w caller ->
    renounceOwnership caller w = (r, w') ->
    reachable w'.

(** The sum of all confidential balances, in the clear. *)
Definition sum_balances (m : gmap address Z) : Z :=
  map_fold (fun _ v acc => v + acc) 0 m.

(** The ceiling of [a / b] as the specification words it. *)
Definition ceil_div (a b : Z) : Z := (a + b - 1) / b.

(** ** [ConfidentialTokenFactory] *)

Inductive FactoryEvent : Type :=
| TokenCreated (creator token : address) (name symbol : string)
    (totalSupplyClear pricePerTokenWei : Z).

(** The registry's two tables, the ledgers it deployed, and the nonce from
    which the address of the next deployment is derived. *)
Record Factory : Type := mkFactory {
  factory_address : address;
  nonce : N;
  _allTokens : list address;
  _tokensByCreator : gmap address (list address);
  deployed : gmap address Storage;
  factory_logs : list FactoryEvent
}.

Definition allTokensLength (f : Factory) : Z := Z.of_nat (length (_allTokens f)).

Definition getAllTokens (f : Factory) : list address := _allTokens f.

Definition getTokensByCreator (f : Factory) (creator : address) : list address :=
  default [] (_tokensByCreator f !! creator).

Section Registry.

(** The address [new] gives a contract deployed by [deployer] at [nonce]. *)
Variable create_address : address -> N -> address.

Definition createToken (caller : address) (name_ symbol_ : string)
    (totalSupplyClear_ pricePerTokenWei_ : Z) (f : Factory) : Outcome address * Factory :=
  let token := create_address (factory_address f) (nonce f) in
  match constructor name_ symbol_ totalSupplyClear_ pricePerTokenWei_ "" caller
          (mkWorld token empty_storage ∅ (fun _ => true) []) with
  | (Revert e, _) => (Revert e, f)
  | (Return _, w) =>
      let all := _allTokens f ++ [token] in
      let mine := <[caller := getTokensByCreator f caller ++ [token]]> (_tokensByCreator f) in
      (Return token,
       mkFactory (factory_address f) (nonce f + 1)%N all mine
         (<[token := storage w]> (deployed f))
         (factory_logs f ++
            [TokenCreated caller token name_ symbol_ totalSupplyClear_ pricePerTokenWei_]))
  end.

Definition new_factory (self : address) : Factory :=
  mkFactory self 1%N [] ∅ ∅ [].

Inductive registry_reachable : Factory -> Prop :=
| registry_deployed self : registry_reachable (new_factory self)
| registry_create f caller name_ symbol_ supply price r f' :
    registry_reachable f ->
    createToken caller name_ symbol_ supply price f = (r, f') ->
    registry_reachable f'.

(** Any number of [createToken] calls, successful or not. *)
Inductive registry_steps : Factory -> Factory -> Prop :=
| registry_steps_refl f : registry_steps f f
| registry_steps_call f caller name_ symbol_ supply price r f' f'' :
    createToken caller name_ symbol_ supply price f = (r, f') ->
    registry_steps f' f'' ->
    registry_steps f f''.

End Registry.

(** What [_update from to amount] does to the balance table when [from] is a
    holder: the amount moves if the holder's balance covers it, and nothing
    moves otherwise. *)
Definition transfer_balances (from to : address) (amount : Z)
    (m : gmap address Z) : gmap address Z :=
  let b := default 0 (m !! from) in
  let moved := if amount <=? b then amount else 0 in
  let m1 := <[from := if amount <=? b then (b - amount) mod 2 ^ 64 else b]> m in
  <[to := (default 0 (m1 !! to) + moved) mod 2 ^ 64]> m1.

Definition with_balances (m : gmap address Z) (st : Storage) : Storage :=
  mkStorage (_name st) (_symbol st) (_contractURI st) (totalSupplyClear st)
    (remainingForSaleClear st) (pricePerTokenWei st) (_owner st) (_status st)
    m (_totalSupply st).

(** The amount [_update] reports as transferred from a balance of [b]. *)
Definition moved_amount (amount b : Z) : Z := if amount <=? b then amount else 0.

(** The quote as a function of the price alone. *)
Definition quote (price amount : Z) : Outcome Z :=
  if (amount =? 0) || (price =? 0) then Return 0
  else if ceil_div (amount * price) TOKEN_BASE <=? UINT256_MAX
       then Return (ceil_div (amount * price) TOKEN_BASE)
       else Revert (Panic UNDER_OVERFLOW).

(** The stages of a purchase that passed its checks at the quote [q]: the
    attached value has arrived and the guard is taken ([buy_entered]); the
    supply is decremented and the encrypted amount moved ([buy_settled]);
    the overpayment is returned, the purchase logged and the guard released
    ([buy_done]). *)
Definition buy_entered (msg : Msg) (w : World) : World :=
  with_storage (set_status ENTERED)
    (move_value (sender msg) (this w) (value msg) w).

Definition buy_settled (msg : Msg) (amount : Z) (w : World) : World :=
  let b := default 0 (_balances (storage w) !! this w) in
  push_log (ConfidentialTransfer (this w) (sender msg) (Some (moved_amount amount b)))
    (with_storage
       (with_balances
          (transfer_balances (this w) (sender msg) amount (_balances (storage w))))
       (with_storage
          (set_remainingForSaleClear (remainingForSaleClear (storage w) - amount))
          (buy_entered msg w))).

Definition buy_done (msg : Msg) (amount q : Z) (w : World) : World :=
  let settled := buy_settled msg amount w in
  let refunded :=
    if 0 <? value msg - q
    then move_value (this w) (sender msg) (value msg - q) settled
    else settled in
  with_storage (set_status NOT_ENTERED)
    (push_log (TokenPurchased (sender msg) amount q (value msg)) refunded).

(** A balance table that holds a supply of [T]: no negative entry, and the
    entries add up to [T], which fits in 64 bits. *)
Definition balances_ok (m : gmap address Z) (T : Z) : Prop :=
  (∀ a v, m !! a = Some v -> 0 <= v) ∧ sum_balances m = T ∧ T <= UINT64_MAX.

(** What holds of a ledger between two calls. *)
Record ledger_inv (w : World) : Prop := mk_ledger_inv {
  inv_this : this w ≠ address0;
  inv_status : _status (storage w) = NOT_ENTERED;
  inv_supply :
    0 <= remainingForSaleClear (storage w) <= totalSupplyClear (storage w);
  inv_positive : 0 < totalSupplyClear (storage w);
  inv_price : is_uint256 (pricePerTokenWei (storage w));
  inv_value : 0 <= balanceOf w (this w);
  inv_balances : balances_ok (_balances (storage w)) (totalSupplyClear (storage w));
  inv_stock : ∃ b, _balances (storage w) !! this w = Some b ∧
                   remainingForSaleClear (storage w) <= b
}.

(** What holds of a registry between two calls: every listed address was
    derived from a nonce already used, no address is listed twice, and the
    per-creator lists hold listed addresses only. *)
Record registry_inv (create_address : address -> N -> address) (f : Factory) : Prop :=
  mk_registry_inv {
    rinv_derived : ∀ a, a ∈ _allTokens f ->
      ∃ k, (k < nonce f)%N ∧ a = create_address (factory_address f) k;
    rinv_nodup : NoDup (_allTokens f);
    rinv_listed : ∀ c l a, _tokensByCreator f !! c = Some l -> a ∈ l -> a ∈ _allTokens f;
    rinv_creator_nodup : ∀ c l, _tokensByCreator f !! c = Some l -> NoDup l
  }.

(** The creator the registry recorded for a ledger: the owner its
    constructor was given. *)
Definition creator_of (f : Factory) (token : address) : option address :=
  _owner <$> deployed f !! token.

(** What the events say the ledger took in: the required payment of every
    purchase, less every withdrawal. *)
Definition event_value (e : Event) : Z :=
  match e with
  | TokenPurchased _ _ requiredWei _ => requiredWei
  | Withdrawn _ amountWei => - amountWei
  | _ => 0
  end.

Definition net_collected (l : list Event) : Z :=
  foldr (fun e acc => event_value e + acc) 0 l.

(** ** The front end and the command line

    The forms of [app/src/components] and the tasks of [tasks/] drive the two
    contracts.  A form is modelled by what it leaves on screen and on the
    chain.  The parsers of ethers ([parseUnits], [parseEther], [BigInt]) are
    not modelled: a form receives what they return, [None] when they throw.
    A call the chain would revert throws before anything is sent. *)

Inductive CallFailure : Type :=
| Reverted (e : Error)
| ValueOutOfBounds
| InsufficientFunds.

Inductive Notice : Type :=
| Message (text : string)
| Thrown (failure : CallFailure).

(** The wallet hooks: the connected account, the public client, the signer
    promise, and whether that promise resolves to a signer. *)
Record Wallet : Type := mkWallet {
  account : option address;
  publicClient : bool;
  signerPromise : bool;
  signer : bool
}.

Definition MAX_UINT64 : Z := Z.shiftl 1 64 - 1.

Record TokenRow : Type := mkTokenRow {
  row_address : address;
  row_name : string;
  row_symbol : string;
  row_owner : address;
  row_remainingForSaleClear : Z;
  row_totalSupplyClear : Z;
  row_pricePerTokenWei : Z;
  row_encryptedBalance : option FHE.euint64
}.

(** *** [TokenCard]: the buy form *)

Record BuyTx : Type := mkBuyTx {
  tx_from : address;
  tx_amount : Z;
  tx_value : Z
}.

Record BuyPanel : Type := mkBuyPanel {
  buyError : option Notice;
  lastBuyTx : option BuyTx;
  isBuying : bool
}.

(** [buy] of [TokenCard]: [token] is the row the card shows, [parsed] what
    [parseUnits] made of the amount typed, [w] the world of the ledger at
    the row's address. *)
Definition TokenCard_buy (wallet : Wallet) (token : TokenRow) (parsed : option Z)
    (panel : BuyPanel) (w : World) : BuyPanel * World :=
  let stop (text : string) := (mkBuyPanel (Some (Message text)) None (isBuying panel), w) in
  match account wallet with
  | None => stop "Connect your wallet to buy tokens."
  | Some address_ =>
      if negb (publicClient wallet) then stop "Public client not available."
      else if negb (signerPromise wallet) then stop "Signer not available."
      else
        match parsed with
        | None => stop "Amount must be a number."
        | Some amountBase =>
            if (amountBase <=? 0) || (MAX_UINT64 <? amountBase)
            then stop "Amount must fit in uint64 and be greater than 0."
            else if row_remainingForSaleClear token <? amountBase
            then stop "Not enough remaining supply for sale."
            else
              match fst (quoteBuy amountBase w) with
              | Revert e => (mkBuyPanel (Some (Thrown (Reverted e))) None false, w)
              | Return requiredWei =>
                  if negb (signer wallet)
                  then (mkBuyPanel (Some (Message "Signer not available.")) None false, w)
                  else if balanceOf w address_ <? requiredWei
                  then (mkBuyPanel (Some (Thrown InsufficientFunds)) None false, w)
                  else
                    match buy (mkMsg address_ requiredWei) amountBase w with
                    | (Return _, w') =>
                        (mkBuyPanel None (Some (mkBuyTx address_ amountBase requiredWei)) false,
                         w')
                    | (Revert e, _) =>
                        (mkBuyPanel (Some (Thrown (Reverted e))) None false, w)
                    end
              end
        end
  end.

(** *** The [task:token:buy] task: quote, then buy at the quote, unchecked. *)

Definition task_token_buy (signer_ : address) (amount : Z) (w : World)
    : option CallFailure * World :=
  if negb ((0 <=? amount) && (amount <=? UINT64_MAX)) then (Some ValueOutOfBounds, w)
  else
    match fst (quoteBuy amount w) with
    | Revert e => (Some (Reverted e), w)
    | Return requiredWei =>
        if balanceOf w signer_ <? requiredWei then (Some InsufficientFunds, w)
        else
          match buy (mkMsg signer_ requiredWei) amount w with
          | (Return _, w') => (None, w')
          | (Revert e, _) => (Some (Reverted e), w)
          end
    end.

(** *** [TokenMarketplace]: listing the registry *)

(** [Array.from(new Set(l))]: the elements of [l] in the order of their
    first occurrence. *)
Fixpoint set_add_all (seen l : list address) : list address :=
  match l with
  | [] => seen
  | x :: l' =>
      if bool_decide (x ∈ seen) then set_add_all seen l'
      else set_add_all (seen ++ [x]) l'
  end.

Definition array_from_set (l : list address) : list address := set_add_all [] l.

Definition set_has (set : list address) (x : address) : bool := bool_decide (x ∈ set).

(** [Array.prototype.sort] with a comparator: a stable sort, here by
    insertion; for a comparator that orders by a key, every stable sort
    gives the same array. *)
Fixpoint sort_insert {A : Type} (cmp : A -> A -> Z) (x : A) (l : list A) : list A :=
  match l with
  | [] => [x]
  | y :: l' => if cmp x y <=? 0 then x :: l else y :: sort_insert cmp x l'
  end.

Definition array_sort {A : Type} (cmp : A -> A -> Z) (l : list A) : list A :=
  foldr (sort_insert cmp) [] l.

Definition Number (b : bool) : Z := if b then 1 else 0.

Record Marketplace : Type := mkMarketplace {
  tokens : list TokenRow;
  myTokenAddresses : list address;
  market_error : option Notice;
  isLoading : bool
}.

(** The seven reads that make the row of a ledger. *)
Definition read_row (ledgers : address -> World) (address_ : option address)
    (tokenAddress : address) : TokenRow :=
  let st := storage (ledgers tokenAddress) in
  mkTokenRow tokenAddress (_name st) (_symbol st) (_owner st)
    (remainingForSaleClear st) (totalSupplyClear st) (pricePerTokenWei st)
    (match address_ with
     | Some a => Some (confidentialBalanceOf (ledgers tokenAddress) a)
     | None => None
     end).

(** [loadTokens] of [TokenMarketplace], one load at a time: [factory] is
    the registry at the address typed, [None] when that is no address. *)
Definition loadTokens (wallet : Wallet) (factory : option Factory)
    (ledgers : address -> World) (market : Marketplace) : Marketplace :=
  if negb (publicClient wallet)
  then mkMarketplace (tokens market) (myTokenAddresses market)
         (Some (Message "Public client not available.")) (isLoading market)
  else
    match factory with
    | None => mkMarketplace (tokens market) (myTokenAddresses market)
                (Some (Message "Enter a valid factory address.")) (isLoading market)
    | Some f =>
        let allTokens := getAllTokens f in
        let myTokens :=
          match account wallet with
          | Some a => getTokensByCreator f a
          | None => []
          end in
        let mySet := array_from_set myTokens in
        let unique := array_from_set (allTokens ++ myTokens) in
        let rows := map (read_row ledgers (account wallet)) unique in
        let sorted :=
          array_sort (fun a b => Number (set_has mySet (row_address b))
                                 - Number (set_has mySet (row_address a))) rows in
        mkMarketplace sorted mySet None false
    end.

(** The two counters of the header. *)
Definition stats (market : Marketplace) : nat * nat :=
  (length (tokens market),
   length (filter (fun t => set_has (myTokenAddresses market) (row_address t) = true)
             (tokens market))).

(** *** [TokenCreate]: the creation form *)

Inductive ReceiptLog : Type :=
| LedgerLog (e : Event)
| RegistryLog (e : FactoryEvent).

(** [iface.parseLog] with the registry's interface: a log of another
    contract parses to [null]. *)
Definition parseLog (log : ReceiptLog) : option FactoryEvent :=
  match log with
  | RegistryLog e => Some e
  | LedgerLog _ => None
  end.

Definition created_token (logs_ : list ReceiptLog) : option address :=
  match list_find (fun parsed => is_Some parsed) (map parseLog logs_) with
  | Some (_, Some (TokenCreated _ token _ _ _ _)) => Some token
  | _ => None
  end.

Record CreatePanel : Type := mkCreatePanel {
  create_error : option Notice;
  createdToken : option address;
  txHash : option address;
  isSubmitting : bool
}.

Section TokenCreate.

Variable create_address : address -> N -> address.

(** [String.prototype.trim]. *)
Variable trim : string -> string.

(** The logs of the receipt of a [createToken] transaction: those of the
    ledger's constructor, then the registry's. *)
Definition createToken_receipt (caller : address) (name_ symbol_ : string)
    (supply price : Z) (f : Factory) : list ReceiptLog :=
  let token := create_address (factory_address f) (nonce f) in
  match constructor name_ symbol_ supply price "" caller
          (mkWorld token empty_storage ∅ (fun _ => true) []) with
  | (Return _, w) =>
      map LedgerLog (logs w) ++
      [RegistryLog (TokenCreated caller token name_ symbol_ supply price)]
  | (Revert _, _) => []
  end.

(** [submit] of [TokenCreate]: [factory] is the registry at the address
    typed, [supply] and [priceWei] what [BigInt] and [parseEther] made of the
    two numbers typed.  The transaction is named by the caller that sent
    it. *)
Definition TokenCreate_submit (wallet : Wallet) (factory : option Factory)
    (name_ symbol_ : string) (supply priceWei : option Z) (panel : CreatePanel)
    : CreatePanel * option Factory :=
  let stop (text : string) :=
    (mkCreatePanel (Some (Message text)) None None (isSubmitting panel), factory) in
  match account wallet with
  | None => stop "Connect your wallet to create a token."
  | Some address_ =>
      if negb (signerPromise wallet) then stop "Connect your wallet to create a token."
      else
        match factory with
        | None => stop "Enter a valid factory address."
        | Some f =>
            let trimmedName := trim name_ in
            let trimmedSymbol := trim symbol_ in
            if bool_decide (trimmedName = "") || bool_decide (trimmedSymbol = "")
            then stop "Token name and symbol are required."
            else
              match supply with
              | None => stop "Total supply must be an integer (uint64)."
              | Some supply_ =>
                  if (supply_ <=? 0) || (MAX_UINT64 <? supply_)
                  then stop "Total supply must fit in uint64 and be greater than 0."
                  else
                    match priceWei with
                    | None => stop "Price must be a valid ETH value (example: 0.0001)."
                    | Some priceWei_ =>
                        if negb (signer wallet)
                        then (mkCreatePanel (Some (Message "Signer not available."))
                                None None false, factory)
                        else if negb ((0 <=? priceWei_) && (priceWei_ <=? UINT256_MAX))
                        then (mkCreatePanel (Some (Thrown ValueOutOfBounds))
                                None None false, factory)
                        else
                          match createToken create_address address_ trimmedName
                                  trimmedSymbol supply_ priceWei_ f with
                          | (Return _, f') =>
                              (mkCreatePanel None
                                 (created_token
                                    (createToken_receipt address_ trimmedName
                                       trimmedSymbol supply_ priceWei_ f))
                                 (Some address_) false,
                               Some f')
                          | (Revert e, _) =>
                              (mkCreatePanel (Some (Thrown (Reverted e)))
                                 None None false, factory)
                          end
                    end
              end
        end
  end.

End TokenCreate.

(** ** Sample worlds

    The scenario of the repository's test: a ledger at address 100 with ten
    tokens for sale at 0.001 ether each, owned by account 5; account 7 holds
    five ether; account 8 holds one ether and its code takes no plain value
    transfer. *)

Definition genesis : World :=
  mkWorld 100%N empty_storage
    (<[7%N := 5000000000000000000]> (<[8%N := 1000000000000000000]> ∅))
    (fun a => negb (N.eqb a 8%N)) [].

Definition deploy (price : Z) : World :=
  snd (transact (constructor "MyToken" "MTK" 10000000 price "" 5%N) genesis).

Definition sale_world : World := deploy 1000000000000000.

Definition free_world : World := deploy 0.

Definition overpriced_world : World := deploy UINT256_MAX.

(** Three wei for a whole token: most amounts cost less than one wei. *)
Definition penny_world : World := deploy 3.

(** The sale after account 7 bought two tokens for 0.002 ether. *)
Definition funded_world : World :=
  snd (buy (mkMsg 7%N 2000000000000000) 2000000 sale_world).

(** The same sale with the ledger's own address taking no plain transfer
    either, as a contract without a [receive] function. *)
Definition sealed_sale_world : World :=
  snd (transact (constructor "MyToken" "MTK" 10000000 1000000000000000 "" 5%N)
         (mkWorld 100%N empty_storage
            (<[7%N := 5000000000000000000]> (<[8%N := 1000000000000000000]> ∅))
            (fun a => negb (N.eqb a 8%N) && negb (N.eqb a 100%N)) [])).

Definition sealed_funded_world : World :=
  snd (buy (mkMsg 7%N 2000000000000000) 2000000 sealed_sale_world).

Definition sample_address (deployer : address) (n : N) : address :=
  (deployer * 1000 + n)%N.

(** A registry at address 50 after account 5, then account 6, created a
    ledger each. *)
Definition registry_one : Factory :=
  snd (createToken sample_address 5%N "A" "A" 10 1 (new_factory 50%N)).

Definition registry_two : Factory :=
  snd (createToken sample_address 6%N "B" "B" 20 2 registry_one).

(** * Properties *)

(** ** Arithmetic of the quote *)

Lemma ceil_div_floor (p d : Z) :
  0 < d -> ceil_div p d = p / d + (if 0 <? p mod d then 1 else 0).
Proof.
  intros Hd. unfold ceil_div.
  pose proof (Z.div_mod p d ltac:(lia)) as Hp.
  pose proof (Z.mod_pos_bound p d Hd) as Hr.
  destruct (0 <? p mod d) eqn:E.
  - apply Z.ltb_lt in E. symmetry.
    apply (Z.div_unique _ _ _ (p mod d - 1)); lia.
  - apply Z.ltb_ge in E. symmetry.
    apply (Z.div_unique _ _ _ (d - 1)); lia.
Qed.

Lemma ceil_div_bounds (p d : Z) :
  0 < d -> p <= ceil_div p d * d ∧ (ceil_div p d - 1) * d < p.
Proof.
  intros Hd. rewrite ceil_div_floor by done.
  pose proof (Z.div_mod p d ltac:(lia)) as Hp.
  pose proof (Z.mod_pos_bound p d Hd) as Hr.
  destruct (0 <? p mod d) eqn:E.
  - apply Z.ltb_lt in E. split; nia.
  - apply Z.ltb_ge in E. split; nia.
Qed.

Lemma ceil_div_unique (p d c : Z) :
  0 < d -> p <= c * d -> (c - 1) * d < p -> c = ceil_div p d.
Proof.
  intros Hd H1 H2. destruct (ceil_div_bounds p d Hd) as [H3 H4]. nia.
Qed.

Lemma ceil_div_pos (p d : Z) : 0 < d -> 0 < p -> 1 <= ceil_div p d.
Proof.
  intros Hd Hp. destruct (ceil_div_bounds p d Hd) as [H3 H4]. nia.
Qed.

Lemma mulDivR_Ceil (x y d : Z) :
  0 <= x -> 0 <= y -> 0 < d ->
  Math.mulDivR x y d Math.Ceil =
    if ceil_div (x * y) d <=? UINT256_MAX
    then Return (ceil_div (x * y) d)
    else Revert (Panic UNDER_OVERFLOW).
Proof.
  intros Hx Hy Hd.
  assert (Hp : 0 <= x * y) by nia.
  rewrite (ceil_div_floor _ d Hd).
  unfold Math.mulDivR, Math.mulDiv, Math.mul512, Math.mulmod, Math.unsignedRoundsUp.
  rewrite andb_true_l.
  set (p := x * y) in *.
  assert (H2 : 0 < 2 ^ 256) by lia.
  pose proof (Z.div_mod p (2 ^ 256) ltac:(lia)) as Hq.
  pose proof (Z.mod_pos_bound p (2 ^ 256) H2) as Hr.
  pose proof (Z.div_pos p (2 ^ 256) Hp H2) as Hh.
  pose proof (Z.div_mod p d ltac:(lia)) as Hqd.
  pose proof (Z.mod_pos_bound p d Hd) as Hrd.
  pose proof (Z.div_pos p d Hp Hd) as Hhd.
  set (bit := if 0 <? p mod d then 1 else 0).
  assert (Hbit : 0 <= bit <= 1) by (subst bit; destruct (0 <? p mod d); lia).
  assert (Hbit0 : p mod d = 0 -> bit = 0)
    by (intros E; subst bit; rewrite E; reflexivity).
  destruct (p / 2 ^ 256 =? 0) eqn:Ehigh.
  - apply Z.eqb_eq in Ehigh.
    assert (Hsmall : p < 2 ^ 256) by lia.
    replace (d =? 0) with false by (symmetry; apply Z.eqb_neq; lia).
    rewrite Z.mod_small by lia. cbn [obind]. unfold checked_add256, UINT256_MAX.
    assert (Hfit : p / d + bit <= 2 ^ 256 - 1).
    { destruct (decide (d = 1)) as [->|Hd1].
      - rewrite Z.mod_1_r in Hbit0. rewrite Z.div_1_r. lia.
      - assert (p / d * 2 <= p) by nia. lia. }
    destruct (p / d + bit <=? 2 ^ 256 - 1) eqn:E; [done|].
    apply Z.leb_gt in E. lia.
  - apply Z.eqb_neq in Ehigh.
    destruct (d <=? p / 2 ^ 256) eqn:Eov.
    + apply Z.leb_le in Eov.
      replace (d =? 0) with false by (symmetry; apply Z.eqb_neq; lia).
      cbn [obind]. unfold UINT256_MAX.
      assert (2 ^ 256 <= p / d).
      { apply Z.div_le_lower_bound; [lia|]. nia. }
      destruct (p / d + bit <=? 2 ^ 256 - 1) eqn:E; [|done].
      apply Z.leb_le in E. lia.
    + cbn [obind]. unfold checked_add256. done.
Qed.

(** Running a computation: unfold the monad down to the world. *)
Ltac mrun :=
  repeat (unfold mbind, mret, M_bind, M_ret, sload, sstore, gets, modify, emit,
          lift, revert; cbn).

(** [quoteBuy] reads the price and changes nothing; its result is the
    ceiling whenever that fits in 256 bits. *)
Lemma quoteBuy_run (w : World) (amount : Z) :
  is_uint64 amount -> is_uint256 (pricePerTokenWei (storage w)) ->
  quoteBuy amount w = (quote (pricePerTokenWei (storage w)) amount, w).
Proof.
  intros [Ha _] [Hp _]. unfold quoteBuy, quote.
  destruct (amount =? 0) eqn:Ea; [done|].
  mrun.
  destruct (pricePerTokenWei (storage w) =? 0) eqn:Ep; [done|].
  rewrite mulDivR_Ceil by (unfold TOKEN_BASE; lia). done.
Qed.

Lemma quote_nonneg (price amount q : Z) :
  0 <= amount -> 0 <= price -> quote price amount = Return q -> 0 <= q.
Proof.
  intros Ha Hp. unfold quote.
  destruct ((amount =? 0) || (price =? 0)); [by intros [= <-]|].
  destruct (_ <=? _); [|done]. intros [= <-].
  destruct (ceil_div_bounds (amount * price) TOKEN_BASE ltac:(done)) as [H1 H2].
  unfold TOKEN_BASE in *. nia.
Qed.

Lemma quoteBuy_pure (w : World) (amount : Z) : snd (quoteBuy amount w) = w.
Proof.
  unfold quoteBuy. destruct (amount =? 0); [done|].
  mrun.
  destruct (pricePerTokenWei (storage w) =? 0); done.
Qed.

Lemma ceil_div_small_price (amount price : Z) :
  is_uint64 amount -> 0 <= price < 2 ^ 192 ->
  ceil_div (amount * price) TOKEN_BASE <= UINT256_MAX.
Proof.
  unfold is_uint64, UINT64_MAX, UINT256_MAX, TOKEN_BASE. intros Ha Hp.
  assert (H0 : 0 <= amount * price) by nia.
  assert (H1 : amount * price < 2 ^ 64 * 2 ^ 192) by nia.
  destruct (ceil_div_bounds (amount * price) 1000000 ltac:(lia)) as [_ H3].
  replace (2 ^ 64 * 2 ^ 192) with (2 ^ 256) in H1 by reflexivity.
  lia.
Qed.

(** C1 (amended): [quoteBuy] changes nothing; it returns 0 when the amount or
    the price is 0; otherwise it returns exactly the ceiling of
    [amount * pricePerTokenWei / 1_000_000] whenever that ceiling fits in 256
    bits (as it does for every price below [2 ^ 192]) and fails with the
    arithmetic overflow panic when it does not; every returned quote [q]
    satisfies [q * 1_000_000 >= amount * price] and
    [(q - 1) * 1_000_000 < amount * price]. *)
Theorem quoteBuy_ceiling_when_it_fits (w : World) (amount : Z) :
  is_uint64 amount -> is_uint256 (pricePerTokenWei (storage w)) ->
  let price := pricePerTokenWei (storage w) in
  let c := ceil_div (amount * price) TOKEN_BASE in
  snd (quoteBuy amount w) = w ∧
  (amount = 0 ∨ price = 0 -> fst (quoteBuy amount w) = Return 0) ∧
  (amount ≠ 0 -> price ≠ 0 -> c <= UINT256_MAX ->
     fst (quoteBuy amount w) = Return c) ∧
  (amount ≠ 0 -> price ≠ 0 -> UINT256_MAX < c ->
     fst (quoteBuy amount w) = Revert (Panic UNDER_OVERFLOW)) ∧
  (∀ q, fst (quoteBuy amount w) = Return q ->
     amount * price <= q * 1000000 ∧ (q - 1) * 1000000 < amount * price) ∧
  (price < 2 ^ 192 -> ∃ q, fst (quoteBuy amount w) = Return q).
Proof.
  intros Ha Hp price c.
  pose proof (quoteBuy_run w amount Ha Hp) as Hrun.
  unfold quote in Hrun. fold price in Hrun. fold c in Hrun.
  destruct (ceil_div_bounds (amount * price) TOKEN_BASE ltac:(done)) as [Hc1 Hc2].
  fold c in Hc1, Hc2. unfold TOKEN_BASE in Hc1, Hc2.
  split; [apply quoteBuy_pure|].
  rewrite Hrun. cbn [fst].
  split; [|split; [|split; [|split]]].
  - intros [->| ->]; [done|]. by rewrite Z.eqb_refl, orb_true_r.
  - intros Hna Hnp Hfit.
    apply Z.eqb_neq in Hna, Hnp. rewrite Hna, Hnp. cbn.
    apply Z.leb_le in Hfit. by rewrite Hfit.
  - intros Hna Hnp Hbig.
    apply Z.eqb_neq in Hna, Hnp. rewrite Hna, Hnp. cbn.
    apply Z.leb_gt in Hbig. by rewrite Hbig.
  - intros q. destruct ((amount =? 0) || (price =? 0)) eqn:E.
    + apply orb_true_iff in E as [E|E]; apply Z.eqb_eq in E;
        intros H; injection H as <-; rewrite E; lia.
    + destruct (c <=? UINT256_MAX); intros H; [|done]. injection H as <-. lia.
  - intros Hsmall.
    destruct ((amount =? 0) || (price =? 0)); [by eexists|].
    pose proof (ceil_div_small_price amount price Ha ltac:(unfold is_uint256 in Hp; lia)) as Hfit.
    fold c in Hfit. apply Z.leb_le in Hfit. rewrite Hfit. by eexists.
Qed.

(** The test's scenario: two tokens at 0.001 ether each cost 0.002 ether. *)
Lemma quoteBuy_ceiling_when_it_fits_witness :
  fst (quoteBuy 2000000 sale_world) = Return 2000000000000000.
Proof.
  assert (Ha : is_uint64 2000000) by (by vm_compute).
  assert (Hp : is_uint256 (pricePerTokenWei (storage sale_world))) by (by vm_compute).
  pose proof (quoteBuy_ceiling_when_it_fits sale_world 2000000 Ha Hp) as (_ & _ & H & _).
  apply H; by vm_compute.
Defined.

(** C1 as stated fails: at the price [2 ^ 256 - 1] the quote for two tokens
    does not fit in 256 bits, and [quoteBuy] reverts instead of returning the
    ceiling. *)
Lemma quoteBuy_overflow_counterexample :
  is_uint64 2000000 ∧
  is_uint256 (pricePerTokenWei (storage overpriced_world)) ∧
  pricePerTokenWei (storage overpriced_world) ≠ 0 ∧
  fst (quoteBuy 2000000 overpriced_world) = Revert (Panic UNDER_OVERFLOW) ∧
  fst (quoteBuy 2000000 overpriced_world) ≠
    Return (ceil_div (2000000 * pricePerTokenWei (storage overpriced_world)) TOKEN_BASE).
Proof. by vm_compute. Qed.

(** C8: with an amount and a price of at least 1, a quote is never 0: every
    returned quote is at least 1, the quote is exactly 1 when
    [amount * price < 1_000_000], and a quote is returned for every price
    below [2 ^ 192]. *)
Theorem quoteBuy_never_free (w : World) (amount : Z) :
  1 <= amount <= UINT64_MAX ->
  1 <= pricePerTokenWei (storage w) <= UINT256_MAX ->
  (∀ q, fst (quoteBuy amount w) = Return q -> 1 <= q) ∧
  fst (quoteBuy amount w) ≠ Return 0 ∧
  (amount * pricePerTokenWei (storage w) < 1000000 ->
     fst (quoteBuy amount w) = Return 1) ∧
  (pricePerTokenWei (storage w) < 2 ^ 192 ->
     ∃ q, fst (quoteBuy amount w) = Return q ∧ 1 <= q).
Proof.
  intros Ha Hp. set (price := pricePerTokenWei (storage w)) in *.
  assert (Ha' : is_uint64 amount) by (unfold is_uint64; lia).
  assert (Hp' : is_uint256 price) by (unfold is_uint256; lia).
  pose proof (quoteBuy_run w amount Ha' Hp') as Hrun.
  unfold quote in Hrun. fold price in Hrun.
  assert (Hpos : 1 <= ceil_div (amount * price) TOKEN_BASE)
    by (apply ceil_div_pos; [done|nia]).
  replace (amount =? 0) with false in Hrun by (symmetry; apply Z.eqb_neq; lia).
  replace (price =? 0) with false in Hrun by (symmetry; apply Z.eqb_neq; lia).
  cbn [orb] in Hrun. rewrite Hrun. cbn [fst].
  assert (Hq : ∀ q, (if ceil_div (amount * price) TOKEN_BASE <=? UINT256_MAX
                     then Return (ceil_div (amount * price) TOKEN_BASE)
                     else Revert (Panic UNDER_OVERFLOW)) = Return q -> 1 <= q).
  { intros q. destruct (_ <=? _); intros H; [|done]. by injection H as <-. }
  split; [exact Hq|]. split; [intros H; apply Hq in H; lia|]. split.
  - intros Hsub.
    assert (ceil_div (amount * price) TOKEN_BASE = 1) as ->.
    { symmetry. apply ceil_div_unique; unfold TOKEN_BASE; lia. }
    done.
  - intros Hsmall.
    pose proof (ceil_div_small_price amount price Ha' ltac:(lia)) as Hfit.
    apply Z.leb_le in Hfit. rewrite Hfit. eauto.
Qed.

(** One base unit at three wei per token is quoted at one wei, not zero. *)
Lemma quoteBuy_never_free_witness :
  fst (quoteBuy 1 penny_world) = Return 1.
Proof.
  assert (Ha : 1 <= 1 <= UINT64_MAX) by (by vm_compute).
  assert (Hp : 1 <= pricePerTokenWei (storage penny_world) <= UINT256_MAX)
    by (by vm_compute).
  pose proof (quoteBuy_never_free penny_world 1 Ha Hp) as (_ & _ & H & _).
  apply H. by vm_compute.
Defined.

(** ** The balance table *)

Lemma sum_balances_empty : sum_balances ∅ = 0.
Proof. apply map_fold_empty. Qed.

Lemma sum_balances_insert_fresh (m : gmap address Z) (a : address) (v : Z) :
  m !! a = None -> sum_balances (<[a := v]> m) = v + sum_balances m.
Proof.
  intros Hnone. unfold sum_balances.
  apply (map_fold_insert_L (fun _ v acc => v + acc)); [|done].
  intros. lia.
Qed.

Lemma sum_balances_delete (m : gmap address Z) (a : address) (x : Z) :
  m !! a = Some x -> sum_balances m = x + sum_balances (delete a m).
Proof.
  intros Hsome. unfold sum_balances.
  apply (map_fold_delete_L (fun _ v acc => v + acc)); [|done].
  intros. lia.
Qed.

Lemma sum_balances_insert (m : gmap address Z) (a : address) (v : Z) :
  sum_balances (<[a := v]> m) = sum_balances m - default 0 (m !! a) + v.
Proof.
  destruct (m !! a) as [x|] eqn:E; cbn.
  - rewrite <- (insert_delete_eq m a v).
    rewrite sum_balances_insert_fresh by apply lookup_delete_eq.
    rewrite (sum_balances_delete m a x E). lia.
  - rewrite sum_balances_insert_fresh by done. lia.
Qed.

Lemma sum_balances_nonneg (m : gmap address Z) :
  (∀ a v, m !! a = Some v -> 0 <= v) -> 0 <= sum_balances m.
Proof.
  induction m as [|a x m Hnone IH] using map_ind; intros Hpos.
  - by rewrite sum_balances_empty.
  - rewrite sum_balances_insert_fresh by done.
    assert (0 <= x) by (apply (Hpos a); apply lookup_insert_eq).
    assert (0 <= sum_balances m); [|lia].
    apply IH. intros b v Hb. apply (Hpos b).
    rewrite lookup_insert_ne; [done|]. intros ->. congruence.
Qed.

Lemma sum_balances_one (m : gmap address Z) (a : address) (x : Z) :
  (∀ a v, m !! a = Some v -> 0 <= v) -> m !! a = Some x -> x <= sum_balances m.
Proof.
  intros Hpos Ha. rewrite (sum_balances_delete m a x Ha).
  assert (0 <= sum_balances (delete a m)); [|lia].
  apply sum_balances_nonneg. intros b v Hb.
  apply lookup_delete_Some in Hb as [_ Hb]. eauto.
Qed.

Lemma sum_balances_two (m : gmap address Z) (a b : address) (x y : Z) :
  (∀ a v, m !! a = Some v -> 0 <= v) -> a ≠ b ->
  m !! a = Some x -> m !! b = Some y -> x + y <= sum_balances m.
Proof.
  intros Hpos Hab Ha Hb. rewrite (sum_balances_delete m a x Ha).
  assert (y <= sum_balances (delete a m)); [|lia].
  apply (sum_balances_one _ b).
  - intros c v Hc. apply lookup_delete_Some in Hc as [_ Hc]. eauto.
  - by rewrite lookup_delete_ne.
Qed.

Lemma balances_ok_insert (m : gmap address Z) (T T' : Z) (a : address) (v : Z) :
  balances_ok m T -> 0 <= v ->
  T' = T - default 0 (m !! a) + v -> T' <= UINT64_MAX ->
  balances_ok (<[a := v]> m) T'.
Proof.
  intros (Hpos & Hsum & Hmax) Hv -> Hfit. split; [|split; [|done]].
  - intros b x. rewrite lookup_insert. case_decide; [|by eauto].
    intros [= <-]. done.
  - rewrite sum_balances_insert. lia.
Qed.

Lemma transfer_balances_ok (from to : address) (amount b T : Z) (m : gmap address Z) :
  0 <= amount -> m !! from = Some b -> balances_ok m T ->
  balances_ok (transfer_balances from to amount m) T.
Proof.
  intros Hamount Hfrom Hok.
  pose proof Hok as (Hpos & Hsum & Hmax).
  assert (Hb0 : 0 <= b) by eauto.
  assert (HbT : b <= T) by (rewrite <- Hsum; by apply (sum_balances_one _ from)).
  unfold transfer_balances. rewrite Hfrom.
  change (default 0 (Some b)) with b.
  unfold UINT64_MAX in Hmax.
  destruct (amount <=? b) eqn:E.
  - apply Z.leb_le in E. rewrite (Z.mod_small (b - amount)) by lia.
    set (m1 := <[from := b - amount]> m).
    assert (H1 : balances_ok m1 (T - amount)).
    { apply (balances_ok_insert m T); [done|lia| |unfold UINT64_MAX; lia].
      rewrite Hfrom. change (default 0 (Some b)) with b. lia. }
    assert (Hy : 0 <= default 0 (m1 !! to) ∧ default 0 (m1 !! to) + amount <= T).
    { subst m1. rewrite lookup_insert. case_decide.
      - change (default 0 (Some (b - amount))) with (b - amount). lia.
      - destruct (m !! to) as [y|] eqn:Hto.
        + change (default 0 (Some y)) with y.
          pose proof (sum_balances_two m from to b y Hpos ltac:(done) Hfrom Hto).
          assert (0 <= y) by eauto. lia.
        + change (default 0 None) with 0. lia. }
    rewrite Z.mod_small by lia.
    apply (balances_ok_insert m1 (T - amount)); [done|lia|lia|unfold UINT64_MAX; lia].
  - rewrite (insert_id m from b Hfrom).
    assert (Hy : 0 <= default 0 (m !! to) <= T).
    { destruct (m !! to) as [y|] eqn:Hto.
      - change (default 0 (Some y)) with y.
        split; [by eauto|]. rewrite <- Hsum. by apply (sum_balances_one _ to).
      - change (default 0 None) with 0. lia. }
    rewrite Z.add_0_r, Z.mod_small by lia.
    apply (balances_ok_insert m T); [done|lia|lia|unfold UINT64_MAX; lia].
Qed.

(** ** Running the inherited transfer *)

Lemma _transfer_run (w : World) (from to : address) (amount b : Z) :
  from ≠ address0 -> to ≠ address0 ->
  _balances (storage w) !! from = Some b ->
  _transfer from to (FHE.asEuint64 amount) w =
    (Return (Some (moved_amount amount b)),
     push_log (ConfidentialTransfer from to (Some (moved_amount amount b)))
       (with_storage
          (with_balances (transfer_balances from to amount (_balances (storage w)))) w)).
Proof.
  intros Hfrom Hto Hb.
  unfold _transfer, _update, require.
  rewrite !bool_decide_eq_false_2 by done.
  mrun. rewrite Hb. cbn.
  unfold transfer_balances, moved_amount, FHE.ge, FHE.clear, FHE.asEuint64. rewrite Hb.
  change (default 0 (Some b)) with b. change (default 0 (Some amount)) with amount.
  destruct (amount <=? b); reflexivity.
Qed.

Lemma _transfer_uninitialised (w : World) (from to : address) (amount : FHE.euint64) :
  from ≠ address0 -> to ≠ address0 ->
  _balances (storage w) !! from = None ->
  fst (_transfer from to amount w) = Revert (ERC7984ZeroBalance from).
Proof.
  intros Hfrom Hto Hb.
  unfold _transfer, _update, require.
  rewrite !bool_decide_eq_false_2 by done.
  mrun. rewrite Hb. reflexivity.
Qed.

(** ** Native value *)

Lemma balanceOf_move_value (w : World) (a b c : address) (v : Z) :
  balanceOf (move_value a b v w) c =
    balanceOf w c - (if decide (a = c) then v else 0) + (if decide (b = c) then v else 0).
Proof.
  unfold balanceOf, move_value. cbn.
  rewrite !lookup_insert.
  destruct (decide (b = c)) as [->|Hbc]; destruct (decide (a = c)) as [->|Hac];
    cbn; repeat case_decide; try done; cbn; unfold balanceOf; lia.
Qed.

Lemma balanceOf_with_storage (f : Storage -> Storage) (w : World) (a : address) :
  balanceOf (with_storage f w) a = balanceOf w a.
Proof. reflexivity. Qed.

Lemma balanceOf_push_log (e : Event) (w : World) (a : address) :
  balanceOf (push_log e w) a = balanceOf w a.
Proof. reflexivity. Qed.

(** ** Running [buy] *)

Arguments quoteBuy : simpl never.
Arguments _transfer : simpl never.
Arguments call_value : simpl never.
Arguments balanceOf : simpl never.

Lemma buy_frame_run (w : World) (msg : Msg) (amount b : Z) :
  ledger_inv w -> valid_msg w msg -> is_uint64 amount ->
  _balances (storage w) !! this w = Some b ->
  (receive_value msg;; nonReentrant (buy_body msg amount)) w =
    if amount =? 0 then (Revert InvalidAmount, buy_entered msg w)
    else if remainingForSaleClear (storage w) <? amount
    then (Revert SoldOut, buy_entered msg w)
    else match quote (pricePerTokenWei (storage w)) amount with
         | Revert e => (Revert e, buy_entered msg w)
         | Return q =>
             if value msg <? q
             then (Revert (InsufficientPayment q (value msg)), buy_entered msg w)
             else if (0 <? value msg - q) && negb (accepts w (sender msg))
             then (Revert RefundFailed, buy_settled msg amount w)
             else (Return (Some (moved_amount amount b)), buy_done msg amount q w)
         end.
Proof.
  intros Hinv (Hs0 & Hsthis & Hv & Hfunds) Ha Hb.
  destruct Hinv as [Hthis Hstatus Hsupply Hpos Hprice Hvalue Hbal Hstock].
  unfold nonReentrant, _nonReentrantBefore, buy_body, receive_value, require.
  mrun. rewrite Hstatus. mrun.
  destruct (amount =? 0) eqn:Ea; mrun; [done|].
  destruct (remainingForSaleClear (storage w) <? amount) eqn:Er; mrun; [done|].
  rewrite quoteBuy_run by done. cbn.
  destruct (quote (pricePerTokenWei (storage w)) amount) as [q|e] eqn:Eq; [|done].
  assert (Hq : 0 <= q).
  { apply (quote_nonneg _ _ _ (proj1 Ha) (proj1 Hprice) Eq). }
  destruct (value msg <? q) eqn:Ev; cbn; [done|].
  apply Z.ltb_ge in Er, Ev.
  unfold checked_sub64, checked_sub256.
  replace (amount <=? remainingForSaleClear (storage w)) with true
    by (symmetry; apply Z.leb_le; lia).
  cbn.
  rewrite (_transfer_run _ _ _ amount b) by done. cbn.
  replace (q <=? value msg) with true by (symmetry; apply Z.leb_le; lia).
  unfold buy_done, buy_settled, buy_entered. rewrite Hb.
  change (default 0 (Some b)) with b.
  destruct (0 <? value msg - q) eqn:Eref; cbn; [|done].
  unfold call_value. cbn.
  rewrite balanceOf_push_log, !balanceOf_with_storage, balanceOf_move_value.
  rewrite decide_False, decide_True by done.
  replace (value msg - q <=? balanceOf w (this w) - 0 + value msg) with true
    by (symmetry; apply Z.leb_le; lia).
  cbn. destruct (accepts w (sender msg)); done.
Qed.

Lemma buy_run (w : World) (msg : Msg) (amount b : Z) :
  ledger_inv w -> valid_msg w msg -> is_uint64 amount ->
  _balances (storage w) !! this w = Some b ->
  buy msg amount w =
    if amount =? 0 then (Revert InvalidAmount, w)
    else if remainingForSaleClear (storage w) <? amount then (Revert SoldOut, w)
    else match quote (pricePerTokenWei (storage w)) amount with
         | Revert e => (Revert e, w)
         | Return q =>
             if value msg <? q
             then (Revert (InsufficientPayment q (value msg)), w)
             else if (0 <? value msg - q) && negb (accepts w (sender msg))
             then (Revert RefundFailed, w)
             else (Return (Some (moved_amount amount b)), buy_done msg amount q w)
         end.
Proof.
  intros Hinv Hmsg Ha Hb. unfold buy, transact.
  rewrite (buy_frame_run w msg amount b) by done.
  destruct (amount =? 0); [done|].
  destruct (_ <? amount); [done|].
  destruct (quote _ _); [|done].
  destruct (value msg <? a); [done|].
  destruct (_ && _); done.
Qed.

(** A failing call leaves the world as it was: the frame is rolled back. *)
Lemma transact_revert {A : Type} (c : M A) (w w' : World) (e : Error) :
  transact c w = (Revert e, w') -> w' = w.
Proof.
  unfold transact. destruct (c w) as [[a|e'] w'']; [done|]. by intros [= _ <-].
Qed.

Lemma transfer_balances_lookup_other (from to c : address) (amount : Z)
    (m : gmap address Z) :
  c ≠ from -> c ≠ to -> transfer_balances from to amount m !! c = m !! c.
Proof.
  intros Hf Ht. unfold transfer_balances.
  by rewrite !lookup_insert_ne.
Qed.

Lemma transfer_balances_lookup (from to c : address) (amount b T : Z)
    (m : gmap address Z) :
  0 <= amount -> m !! from = Some b -> balances_ok m T -> from ≠ to ->
  transfer_balances from to amount m !! c =
    if decide (c = to) then Some (default 0 (m !! to) + moved_amount amount b)
    else if decide (c = from) then Some (b - moved_amount amount b)
    else m !! c.
Proof.
  intros Hamount Hfrom (Hpos & Hsum & Hmax) Hne.
  assert (Hb0 : 0 <= b) by eauto.
  assert (HbT : b <= T) by (rewrite <- Hsum; by apply (sum_balances_one _ from)).
  unfold UINT64_MAX in Hmax.
  assert (Hto : 0 <= default 0 (m !! to) ∧ default 0 (m !! to) + b <= T).
  { destruct (m !! to) as [y|] eqn:Hto.
    - change (default 0 (Some y)) with y.
      pose proof (sum_balances_two m from to b y Hpos Hne Hfrom Hto).
      assert (0 <= y) by eauto. lia.
    - change (default 0 None) with 0. lia. }
  unfold transfer_balances, moved_amount. rewrite Hfrom.
  change (default 0 (Some b)) with b.
  destruct (decide (c = to)) as [->|Hct].
  - rewrite lookup_insert_eq, lookup_insert_ne by done.
    f_equal. destruct (amount <=? b) eqn:E.
    + apply Z.leb_le in E. apply Z.mod_small. lia.
    + apply Z.mod_small. lia.
  - rewrite lookup_insert_ne by done.
    destruct (decide (c = from)) as [->|Hcf].
    + rewrite lookup_insert_eq. f_equal. destruct (amount <=? b) eqn:E.
      * apply Z.leb_le in E. apply Z.mod_small. lia.
      * lia.
    + by rewrite lookup_insert_ne.
Qed.

(** What a completed purchase did to the native balances: the buyer paid
    the quote, the ledger kept it. *)
Lemma balanceOf_buy_done (w : World) (msg : Msg) (amount q : Z) (c : address) :
  q <= value msg ->
  balanceOf (buy_done msg amount q w) c =
    balanceOf w c - (if decide (sender msg = c) then q else 0)
                  + (if decide (this w = c) then q else 0).
Proof.
  intros Hq. unfold buy_done, buy_settled, buy_entered.
  destruct (0 <? value msg - q) eqn:E.
  - rewrite balanceOf_with_storage, balanceOf_push_log, balanceOf_move_value.
    rewrite balanceOf_push_log, !balanceOf_with_storage, balanceOf_move_value.
    cbn [this push_log with_storage].
    repeat case_decide; lia.
  - apply Z.ltb_ge in E.
    rewrite balanceOf_with_storage, !balanceOf_push_log, !balanceOf_with_storage,
      balanceOf_move_value.
    repeat case_decide; lia.
Qed.

Lemma storage_buy_done (w : World) (msg : Msg) (amount q : Z) :
  storage (buy_done msg amount q w) =
    set_status NOT_ENTERED
      (with_balances
         (transfer_balances (this w) (sender msg) amount (_balances (storage w)))
         (set_remainingForSaleClear (remainingForSaleClear (storage w) - amount)
            (storage w))).
Proof.
  unfold buy_done, buy_settled, buy_entered.
  destruct (0 <? value msg - q); reflexivity.
Qed.

Lemma this_buy_done (w : World) (msg : Msg) (amount q : Z) :
  this (buy_done msg amount q w) = this w.
Proof.
  unfold buy_done, buy_settled, buy_entered.
  destruct (0 <? value msg - q); reflexivity.
Qed.


(** ** The invariant *)

Lemma buy_done_inv (w : World) (msg : Msg) (amount q : Z) :
  ledger_inv w -> valid_msg w msg ->
  0 < amount <= remainingForSaleClear (storage w) ->
  0 <= q <= value msg ->
  ledger_inv (buy_done msg amount q w).
Proof.
  intros [Hthis Hstatus Hsupply Hpos Hprice Hvalue Hbal (b & Hb & Hstock)]
    (Hs0 & Hsthis & Hv & Hfunds) Ha Hq.
  split; rewrite ?this_buy_done, ?storage_buy_done; cbn; try done.
  - lia.
  - rewrite balanceOf_buy_done by lia.
    rewrite decide_False, decide_True by done. lia.
  - by apply (transfer_balances_ok _ _ _ b); [lia| |].
  - exists (b - amount). split; [|lia].
    rewrite (transfer_balances_lookup _ _ _ _ b (totalSupplyClear (storage w)))
      by (done || lia).
    rewrite decide_False, decide_True by done.
    unfold moved_amount.
    replace (amount <=? b) with true by (symmetry; apply Z.leb_le; lia). done.
Qed.

Lemma buy_preserves_inv (w w' : World) (msg : Msg) (amount : Z) (r : Outcome FHE.euint64) :
  ledger_inv w -> valid_msg w msg -> is_uint64 amount ->
  buy msg amount w = (r, w') -> ledger_inv w'.
Proof.
  intros Hinv Hmsg Ha.
  destruct (inv_stock w Hinv) as (b & Hb & Hstock).
  rewrite (buy_run w msg amount b) by done.
  destruct (amount =? 0) eqn:Ea; [by intros [= _ <-]|].
  destruct (_ <? amount) eqn:Er; [by intros [= _ <-]|].
  destruct (quote _ _) as [q|e] eqn:Eq; [|by intros [= _ <-]].
  destruct (value msg <? q) eqn:Ev; [by intros [= _ <-]|].
  destruct (_ && _); [by intros [= _ <-]|].
  intros [= _ <-].
  apply Z.eqb_neq in Ea. apply Z.ltb_ge in Er, Ev.
  apply buy_done_inv; try done.
  - unfold is_uint64 in Ha. lia.
  - split; [|done].
    apply (quote_nonneg _ _ _ (proj1 Ha) (proj1 (inv_price w Hinv)) Eq).
Qed.

(** ** Running the owner's functions *)

Lemma setPricePerTokenWei_run (w : World) (caller : address) (newPrice : Z) :
  setPricePerTokenWei caller newPrice w =
    if bool_decide (_owner (storage w) = caller)
    then (Return tt,
          with_storage (set_pricePerTokenWei newPrice)
            (push_log (PriceUpdated (pricePerTokenWei (storage w)) newPrice) w))
    else (Revert (OwnableUnauthorizedAccount caller), w).
Proof.
  unfold setPricePerTokenWei, transact, onlyOwner, _checkOwner,
    setPricePerTokenWei_body, require.
  mrun. destruct (bool_decide _); reflexivity.
Qed.

Lemma withdraw_run (w : World) (caller to : address) (amountWei : Z) :
  _status (storage w) = NOT_ENTERED ->
  withdraw caller to amountWei w =
    if negb (bool_decide (_owner (storage w) = caller))
    then (Revert (OwnableUnauthorizedAccount caller), w)
    else if bool_decide (to = address0) || (amountWei =? 0)
    then (Revert InvalidWithdraw, w)
    else if balanceOf w (this w) <? amountWei
    then (Revert InvalidWithdraw, w)
    else if accepts w to
    then (Return tt,
          with_storage (set_status NOT_ENTERED)
            (push_log (Withdrawn to amountWei)
               (move_value (this w) to amountWei
                  (with_storage (set_status ENTERED) w))))
    else (Revert InvalidWithdraw, w).
Proof.
  intros Hstatus.
  unfold withdraw, transact, onlyOwner, _checkOwner, nonReentrant,
    _nonReentrantBefore, withdraw_body, require.
  mrun. destruct (bool_decide (_owner (storage w) = caller)); [|done].
  mrun. rewrite Hstatus. mrun.
  destruct (bool_decide (to = address0) || (amountWei =? 0)); [done|].
  mrun. rewrite balanceOf_with_storage.
  destruct (balanceOf w (this w) <? amountWei) eqn:E; [done|].
  mrun. unfold call_value. cbn. rewrite balanceOf_with_storage.
  apply Z.ltb_ge in E.
  replace (amountWei <=? balanceOf w (this w)) with true
    by (symmetry; by apply Z.leb_le).
  cbn. destruct (accepts w to); reflexivity.
Qed.

Lemma confidentialTransfer_run (w : World) (caller to : address) (amount : Z) :
  caller ≠ address0 ->
  confidentialTransfer caller to amount w =
    if bool_decide (to = address0)
    then (Revert (ERC7984InvalidReceiver address0), w)
    else match _balances (storage w) !! caller with
         | None => (Revert (ERC7984ZeroBalance caller), w)
         | Some b =>
             (Return (Some (moved_amount amount b)),
              push_log (ConfidentialTransfer caller to (Some (moved_amount amount b)))
                (with_storage
                   (with_balances
                      (transfer_balances caller to amount (_balances (storage w)))) w))
         end.
Proof.
  intros Hc. unfold confidentialTransfer, transact.
  destruct (bool_decide (to = address0)) eqn:Eto.
  - unfold _transfer, require.
    rewrite (bool_decide_eq_false_2 _ Hc), Eto. reflexivity.
  - apply bool_decide_eq_false in Eto.
    destruct (_balances (storage w) !! caller) as [b|] eqn:Eb.
    + by rewrite (_transfer_run w caller to amount b).
    + pose proof (_transfer_uninitialised w caller to (FHE.asEuint64 amount) Hc Eto Eb) as H.
      destruct (_transfer _ _ _ w) as [[?|?] ?]; cbn in H; [done|].
      by injection H as ->.
Qed.

Lemma constructor_run (self owner_ : address) (name_ symbol_ uri : string)
    (supply price : Z) (bal : gmap address Z) (acc : address -> bool) :
  is_uint64 supply ->
  transact (constructor name_ symbol_ supply price uri owner_)
      (mkWorld self empty_storage bal acc []) =
    if bool_decide (owner_ = address0)
    then (Revert (OwnableInvalidOwner address0), mkWorld self empty_storage bal acc [])
    else if supply =? 0
    then (Revert InvalidAmount, mkWorld self empty_storage bal acc [])
    else if bool_decide (self = address0)
    then (Revert (ERC7984InvalidReceiver address0), mkWorld self empty_storage bal acc [])
    else (Return tt,
          mkWorld self
            (mkStorage name_ symbol_ uri supply supply price owner_ NOT_ENTERED
               {[self := supply]} (Some supply))
            bal acc
            [OwnershipTransferred address0 owner_;
             ConfidentialTransfer address0 self (Some supply)]).
Proof.
  intros Hs.
  unfold transact, constructor, ERC7984_constructor, Ownable_constructor,
    _transferOwnership, _mint, _update, require.
  rewrite (bool_decide_eq_true_2 (address0 = address0)) by done.
  mrun. destruct (bool_decide (owner_ = address0)); [done|].
  mrun. destruct (supply =? 0); [done|].
  mrun. destruct (bool_decide (self = address0)); [done|].
  mrun. rewrite lookup_empty.
  unfold FHE.add, FHE.clear, FHE.asEuint64.
  change (default 0 None + default 0 (Some supply)) with supply.
  rewrite Z.mod_small by (unfold is_uint64, UINT64_MAX in Hs; lia).
  reflexivity.
Qed.

Lemma constructor_establishes_inv (self owner_ : address) (name_ symbol_ uri : string)
    (supply price : Z) (bal : gmap address Z) (acc : address -> bool) (w : World) :
  is_uint64 supply -> is_uint256 price -> 0 <= default 0 (bal !! self) ->
  transact (constructor name_ symbol_ supply price uri owner_)
    (mkWorld self empty_storage bal acc []) = (Return tt, w) ->
  ledger_inv w ∧
  remainingForSaleClear (storage w) = supply ∧
  totalSupplyClear (storage w) = supply ∧
  supply ≠ 0.
Proof.
  intros Hs Hp Hbal. rewrite constructor_run by done.
  destruct (bool_decide (owner_ = address0)); [done|].
  destruct (supply =? 0) eqn:Es; [done|].
  destruct (bool_decide (self = address0)) eqn:Eself; [done|].
  intros [= <-]. apply Z.eqb_neq in Es. apply bool_decide_eq_false in Eself.
  unfold is_uint64 in Hs.
  split; [|done].
  split; cbn; try done; try lia.
  - split; [|split; [|lia]].
    + intros a v [<- <-]%lookup_singleton_Some. lia.
    + unfold sum_balances. rewrite map_fold_singleton. lia.
  - exists supply. split; [apply lookup_singleton_eq|lia].
Qed.

Lemma setPricePerTokenWei_preserves_inv (w w' : World) (caller : address)
    (newPrice : Z) (r : Outcome unit) :
  ledger_inv w -> is_uint256 newPrice ->
  setPricePerTokenWei caller newPrice w = (r, w') -> ledger_inv w'.
Proof.
  intros Hinv Hp. rewrite setPricePerTokenWei_run.
  destruct (bool_decide _); intros [= _ <-]; [|done].
  destruct Hinv. by split.
Qed.

Lemma withdraw_preserves_inv (w w' : World) (caller to : address)
    (amountWei : Z) (r : Outcome unit) :
  ledger_inv w -> 0 <= amountWei ->
  withdraw caller to amountWei w = (r, w') -> ledger_inv w'.
Proof.
  intros Hinv Hamt. rewrite withdraw_run by apply (inv_status w Hinv).
  destruct (negb _); [by intros [= _ <-]|].
  destruct (_ || _); [by intros [= _ <-]|].
  destruct (_ <? amountWei) eqn:E; [by intros [= _ <-]|].
  destruct (accepts w to); [|by intros [= _ <-]].
  intros [= _ <-]. apply Z.ltb_ge in E.
  destruct Hinv. split; try done.
  cbn [this with_storage push_log].
  rewrite balanceOf_with_storage, balanceOf_push_log, balanceOf_move_value,
    balanceOf_with_storage.
  cbn [this with_storage move_value].
  rewrite decide_True by done. case_decide; lia.
Qed.

Lemma confidentialTransfer_preserves_inv (w w' : World) (caller to : address)
    (amount : Z) (r : Outcome FHE.euint64) :
  ledger_inv w -> valid_caller w caller -> is_uint64 amount ->
  confidentialTransfer caller to amount w = (r, w') -> ledger_inv w'.
Proof.
  intros Hinv [Hc0 Hcthis] Ha. rewrite confidentialTransfer_run by done.
  destruct (bool_decide (to = address0)); [by intros [= _ <-]|].
  destruct (_balances (storage w) !! caller) as [b|] eqn:Eb; [|by intros [= _ <-]].
  intros [= _ <-].
  destruct Hinv as [Hthis Hstatus Hsupply Hpos Hprice Hvalue Hbal (s & Hs & Hstock)].
  split; try done.
  - cbn. by apply (transfer_balances_ok _ _ _ b); [apply Ha| |].
  - cbn. destruct (decide (to = this w)) as [->|Hto].
    + rewrite (transfer_balances_lookup _ _ _ _ b (totalSupplyClear (storage w)))
        by (done || apply Ha).
      rewrite decide_True by done. rewrite Hs.
      change (default 0 (Some s)) with s.
      eexists. split; [done|].
      unfold moved_amount. destruct (amount <=? b); [|lia].
      destruct Ha. lia.
    + rewrite transfer_balances_lookup_other by done. eauto.
Qed.

Lemma transferOwnership_preserves_inv (w w' : World) (caller newOwner : address)
    (r : Outcome unit) :
  ledger_inv w -> transferOwnership caller newOwner w = (r, w') -> ledger_inv w'.
Proof.
  intros Hinv. unfold transferOwnership, transact, onlyOwner, _checkOwner,
    _transferOwnership, require.
  mrun. destruct (bool_decide (_owner (storage w) = caller)); mrun;
    [|by intros [= _ <-]].
  destruct (bool_decide (newOwner = address0)); mrun; intros [= _ <-]; [done|].
  destruct Hinv. by split.
Qed.

Lemma renounceOwnership_preserves_inv (w w' : World) (caller : address)
    (r : Outcome unit) :
  ledger_inv w -> renounceOwnership caller w = (r, w') -> ledger_inv w'.
Proof.
  intros Hinv. unfold renounceOwnership, transact, onlyOwner, _checkOwner,
    _transferOwnership, require.
  mrun. destruct (bool_decide (_owner (storage w) = caller)); mrun;
    intros [= _ <-]; [|done].
  destruct Hinv. by split.
Qed.

(** Every world a ledger can be in satisfies the invariant. *)
Lemma reachable_inv (w : World) : reachable w -> ledger_inv w.
Proof.
  induction 1 as [self bal acc n s supply price uri o w Hs Hp Hb Hrun
                 | w msg amount r w' _ IH Hmsg Ha Hrun
                 | w caller newPrice r w' _ IH Hc Hp Hrun
                 | w caller to amountWei r w' _ IH Hc Hamt Hrun
                 | w caller to amount r w' _ IH Hc Ha Hrun
                 | w caller newOwner r w' _ IH Hc Hrun
                 | w caller r w' _ IH Hc Hrun].
  - by apply (constructor_establishes_inv _ _ _ _ _ _ _ _ _ _ Hs Hp Hb Hrun).
  - by apply (buy_preserves_inv w w' msg amount r).
  - by apply (setPricePerTokenWei_preserves_inv w w' caller newPrice r).
  - apply (withdraw_preserves_inv w w' caller to amountWei r); [done| |done].
    apply Hamt.
  - by apply (confidentialTransfer_preserves_inv w w' caller to amount r).
  - by apply (transferOwnership_preserves_inv w w' caller newOwner r).
  - by apply (renounceOwnership_preserves_inv w w' caller r).
Qed.

(** ** The sample worlds are reachable *)

Lemma deploy_run (price : Z) :
  transact (constructor "MyToken" "MTK" 10000000 price "" 5%N) genesis =
    (Return tt, deploy price).
Proof.
  unfold deploy, genesis. rewrite constructor_run by (by vm_compute). reflexivity.
Qed.

Lemma deploy_reachable (price : Z) : is_uint256 price -> reachable (deploy price).
Proof.
  intros Hp.
  eapply (reach_deploy 100%N _ _ "MyToken" "MTK" 10000000 price "" 5%N);
    [| exact Hp | | apply deploy_run]; by vm_compute.
Qed.

Lemma sale_world_reachable : reachable sale_world.
Proof. apply deploy_reachable. by vm_compute. Qed.

Lemma free_world_reachable : reachable free_world.
Proof. apply deploy_reachable. by vm_compute. Qed.

Lemma funded_world_reachable : reachable funded_world.
Proof.
  eapply (reach_buy sale_world (mkMsg 7%N 2000000000000000) 2000000);
    [apply sale_world_reachable| | |unfold funded_world; apply surjective_pairing];
    by vm_compute.
Qed.

(** ** Re-entry

    While the guard is taken, a nested [buy] or [withdraw] is turned away
    before it looks at anything. *)

Lemma buy_reentrant (w : World) (msg : Msg) (amount : Z) :
  _status (storage w) = ENTERED ->
  buy msg amount w = (Revert ReentrancyGuardReentrantCall, w).
Proof.
  intros Hstatus.
  unfold buy, transact, nonReentrant, _nonReentrantBefore, receive_value.
  mrun. by rewrite Hstatus.
Qed.

Lemma withdraw_reentrant (w : World) (to : address) (amountWei : Z) :
  _status (storage w) = ENTERED ->
  withdraw (_owner (storage w)) to amountWei w =
    (Revert ReentrancyGuardReentrantCall, w).
Proof.
  intros Hstatus.
  unfold withdraw, transact, onlyOwner, _checkOwner, nonReentrant,
    _nonReentrantBefore, require.
  mrun. rewrite bool_decide_eq_true_2 by done. mrun. by rewrite Hstatus.
Qed.

(** ** Purchases *)

Lemma quoteBuy_fst (w : World) (amount : Z) :
  ledger_inv w -> is_uint64 amount ->
  fst (quoteBuy amount w) = quote (pricePerTokenWei (storage w)) amount.
Proof.
  intros Hinv Ha. by rewrite quoteBuy_run by (done || apply Hinv).
Qed.

(** A purchase that passes the three checks and whose refund, if any, is
    taken by the caller. *)
Lemma buy_success_run (w : World) (msg : Msg) (amount q : Z) :
  ledger_inv w -> valid_msg w msg -> is_uint64 amount ->
  0 < amount <= remainingForSaleClear (storage w) ->
  fst (quoteBuy amount w) = Return q -> q <= value msg ->
  value msg = q ∨ accepts w (sender msg) = true ->
  buy msg amount w = (Return (Some amount), buy_done msg amount q w).
Proof.
  intros Hinv Hmsg Ha Hamt Hq Hpaid Hrefund.
  destruct (inv_stock w Hinv) as (b & Hb & Hstock).
  rewrite quoteBuy_fst in Hq by done.
  rewrite (buy_run w msg amount b) by done. rewrite Hq.
  replace (amount =? 0) with false by (symmetry; apply Z.eqb_neq; lia).
  replace (remainingForSaleClear (storage w) <? amount) with false
    by (symmetry; apply Z.ltb_ge; lia).
  replace (value msg <? q) with false by (symmetry; apply Z.ltb_ge; lia).
  replace ((0 <? value msg - q) && negb (accepts w (sender msg))) with false.
  - unfold moved_amount.
    replace (amount <=? b) with true by (symmetry; apply Z.leb_le; lia). done.
  - symmetry. destruct Hrefund as [->| ->].
    + by rewrite Z.sub_diag.
    + apply andb_false_r.
Qed.

(** A purchase that passes the three checks but whose refund the caller
    does not take. *)
Lemma buy_refund_rejected_run (w : World) (msg : Msg) (amount q : Z) :
  ledger_inv w -> valid_msg w msg -> is_uint64 amount ->
  0 < amount <= remainingForSaleClear (storage w) ->
  fst (quoteBuy amount w) = Return q -> q < value msg ->
  accepts w (sender msg) = false ->
  (receive_value msg;; nonReentrant (buy_body msg amount)) w =
    (Revert RefundFailed, buy_settled msg amount w) ∧
  buy msg amount w = (Revert RefundFailed, w).
Proof.
  intros Hinv Hmsg Ha Hamt Hq Hpaid Hrej.
  destruct (inv_stock w Hinv) as (b & Hb & Hstock).
  rewrite quoteBuy_fst in Hq by done.
  rewrite (buy_run w msg amount b), (buy_frame_run w msg amount b) by done.
  rewrite Hq, Hrej.
  replace (amount =? 0) with false by (symmetry; apply Z.eqb_neq; lia).
  replace (remainingForSaleClear (storage w) <? amount) with false
    by (symmetry; apply Z.ltb_ge; lia).
  replace (value msg <? q) with false by (symmetry; apply Z.ltb_ge; lia).
  replace (0 <? value msg - q) with true by (symmetry; apply Z.ltb_lt; lia).
  done.
Qed.

Lemma confidentialBalanceOf_buy_settled (w : World) (msg : Msg) (amount : Z) (c : address) :
  ledger_inv w -> valid_msg w msg ->
  0 < amount <= remainingForSaleClear (storage w) ->
  confidentialBalanceOf (buy_settled msg amount w) c =
    if decide (c = sender msg)
    then Some (FHE.clear (confidentialBalanceOf w c) + amount)
    else if decide (c = this w)
    then Some (FHE.clear (confidentialBalanceOf w c) - amount)
    else confidentialBalanceOf w c.
Proof.
  intros Hinv (Hs0 & Hsthis & Hv & Hfunds) Hamt.
  destruct (inv_stock w Hinv) as (b & Hb & Hstock).
  unfold confidentialBalanceOf, buy_settled, buy_entered. cbn.
  rewrite (transfer_balances_lookup _ _ _ _ b (totalSupplyClear (storage w)));
    [|lia|done|apply Hinv|done].
  unfold moved_amount.
  replace (amount <=? b) with true by (symmetry; apply Z.leb_le; lia).
  destruct (decide (c = sender msg)) as [->|]; [done|].
  destruct (decide (c = this w)) as [->|]; [|done].
  rewrite Hb. done.
Qed.

Lemma confidentialBalanceOf_buy_done (w : World) (msg : Msg) (amount q : Z) (c : address) :
  confidentialBalanceOf (buy_done msg amount q w) c =
    confidentialBalanceOf (buy_settled msg amount w) c.
Proof.
  unfold confidentialBalanceOf. rewrite storage_buy_done. reflexivity.
Qed.

Lemma balanceOf_buy_settled (w : World) (msg : Msg) (amount : Z) (c : address) :
  balanceOf (buy_settled msg amount w) c =
    balanceOf w c - (if decide (sender msg = c) then value msg else 0)
                  + (if decide (this w = c) then value msg else 0).
Proof.
  unfold buy_settled, buy_entered.
  by rewrite balanceOf_push_log, !balanceOf_with_storage, balanceOf_move_value.
Qed.

(** C2: a failing [buy] changes nothing: whatever the failure, the world
    after the call is the world before it (supply, price, confidential
    balances, native balances and events alike).  In particular, when the
    caller does not take the refund, the body has already received the
    payment, decremented the supply and moved the encrypted amount when it
    reverts with [RefundFailed], and the call still leaves the world as it
    was. *)
Theorem buy_failure_is_atomic :
  (∀ (msg : Msg) (amount : Z) (w w' : World) (e : Error),
     buy msg amount w = (Revert e, w') -> w' = w) ∧
  (∀ (w : World) (msg : Msg) (amount q : Z),
     reachable w -> valid_msg w msg -> is_uint64 amount ->
     0 < amount <= remainingForSaleClear (storage w) ->
     fst (quoteBuy amount w) = Return q -> q < value msg ->
     accepts w (sender msg) = false ->
     ∃ dirty : World,
       (receive_value msg;; nonReentrant (buy_body msg amount)) w =
         (Revert RefundFailed, dirty) ∧
       remainingForSaleClear (storage dirty) =
         remainingForSaleClear (storage w) - amount ∧
       confidentialBalanceOf dirty (sender msg) =
         Some (FHE.clear (confidentialBalanceOf w (sender msg)) + amount) ∧
       balanceOf dirty (this w) = balanceOf w (this w) + value msg ∧
       dirty ≠ w ∧
       buy msg amount w = (Revert RefundFailed, w)).
Proof.
  split.
  - intros msg amount w w' e. unfold buy. apply transact_revert.
  - intros w msg amount q Hreach Hmsg Ha Hamt Hq Hpaid Hrej.
    pose proof (reachable_inv w Hreach) as Hinv.
    destruct (buy_refund_rejected_run w msg amount q) as [Hframe Hbuy]; try done.
    exists (buy_settled msg amount w).
    assert (Hrem : remainingForSaleClear (storage (buy_settled msg amount w)) =
                   remainingForSaleClear (storage w) - amount) by reflexivity.
    split; [done|]. split; [done|]. split; [|split; [|split; [|done]]].
    + rewrite confidentialBalanceOf_buy_settled by done. by rewrite decide_True.
    + rewrite balanceOf_buy_settled.
      destruct Hmsg as (_ & Hne & _ & _).
      rewrite decide_False, decide_True by done. lia.
    + intros Heq. rewrite Heq in Hrem. lia.
Qed.

(** The buyer at account 8 takes no refund: overpaying fails as a whole. *)
Lemma buy_failure_is_atomic_witness :
  buy (mkMsg 8%N 3000000000000000) 2000000 sale_world =
    (Revert RefundFailed, sale_world).
Proof.
  destruct buy_failure_is_atomic as [_ H].
  destruct (H sale_world (mkMsg 8%N 3000000000000000) 2000000 2000000000000000)
    as (dirty & _ & _ & _ & _ & _ & Hbuy);
    [apply sale_world_reachable|by vm_compute..|exact Hbuy].
Defined.

(** C4: [buy] checks in a fixed order: a zero amount is [InvalidAmount]
    whatever else holds; then an amount above the remaining supply is
    [SoldOut], whatever the payment and the price; then a payment below the
    quote is [InsufficientPayment] with the quote and the payment; and the
    three failures are distinct. *)
Theorem buy_checks_in_order (w : World) (msg : Msg) (amount : Z) :
  reachable w -> valid_msg w msg -> is_uint64 amount ->
  (amount = 0 -> buy msg amount w = (Revert InvalidAmount, w)) ∧
  (amount ≠ 0 -> remainingForSaleClear (storage w) < amount ->
     buy msg amount w = (Revert SoldOut, w)) ∧
  (∀ q, amount ≠ 0 -> amount <= remainingForSaleClear (storage w) ->
     fst (quoteBuy amount w) = Return q -> value msg < q ->
     buy msg amount w = (Revert (InsufficientPayment q (value msg)), w)) ∧
  InvalidAmount ≠ SoldOut ∧
  (∀ r p, InsufficientPayment r p ≠ InvalidAmount ∧ InsufficientPayment r p ≠ SoldOut).
Proof.
  intros Hreach Hmsg Ha.
  pose proof (reachable_inv w Hreach) as Hinv.
  destruct (inv_stock w Hinv) as (b & Hb & Hstock).
  rewrite (buy_run w msg amount b) by done.
  split; [|split; [|split; [|split]]].
  - by intros ->.
  - intros Hne Hsold.
    apply Z.eqb_neq in Hne. apply Z.ltb_lt in Hsold. by rewrite Hne, Hsold.
  - intros q Hne Henough Hq Hshort.
    rewrite quoteBuy_fst in Hq by done.
    apply Z.eqb_neq in Hne. apply Z.ltb_ge in Henough. apply Z.ltb_lt in Hshort.
    by rewrite Hne, Henough, Hq, Hshort.
  - done.
  - done.
Qed.

(** Asking for one unit more than the whole supply is [SoldOut], even with
    one ether attached. *)
Lemma buy_checks_in_order_witness :
  buy (mkMsg 7%N 1000000000000000000) 10000001 sale_world = (Revert SoldOut, sale_world).
Proof.
  destruct (buy_checks_in_order sale_world (mkMsg 7%N 1000000000000000000) 10000001)
    as (_ & H & _);
    [apply sale_world_reachable|by vm_compute..|].
  apply H; by vm_compute.
Defined.

(** C3 (amended): for an amount with [0 < amount <= remainingForSaleClear]
    and a payment of at least the quote, [buy] succeeds whenever the payment
    equals the quote or the caller takes the refund: it decrements
    [remainingForSaleClear] by exactly the amount, the caller ends up having
    paid exactly the quote (the payment less a refund of
    [paidWei - quoteBuy(amount)]), the ledger keeps exactly the quote, and
    the purchase is logged.  When the caller does not take a due refund the
    call fails with [RefundFailed] and nothing changes. *)
Theorem buy_charges_exactly_the_quote (w : World) (msg : Msg) (amount q : Z) :
  reachable w -> valid_msg w msg -> is_uint64 amount ->
  0 < amount <= remainingForSaleClear (storage w) ->
  fst (quoteBuy amount w) = Return q -> q <= value msg ->
  (value msg = q ∨ accepts w (sender msg) = true ->
     ∃ w' : World,
       buy msg amount w = (Return (Some amount), w') ∧
       remainingForSaleClear (storage w') =
         remainingForSaleClear (storage w) - amount ∧
       balanceOf w' (sender msg) =
         balanceOf w (sender msg) - value msg + (value msg - q) ∧
       balanceOf w' (this w) = balanceOf w (this w) + q ∧
       last (logs w') = Some (TokenPurchased (sender msg) amount q (value msg))) ∧
  (q < value msg -> accepts w (sender msg) = false ->
     buy msg amount w = (Revert RefundFailed, w)).
Proof.
  intros Hreach Hmsg Ha Hamt Hq Hpaid.
  pose proof (reachable_inv w Hreach) as Hinv.
  split.
  - intros Hrefund. exists (buy_done msg amount q w).
    split; [by apply buy_success_run|].
    rewrite storage_buy_done, !balanceOf_buy_done by done.
    destruct Hmsg as (_ & Hne & _ & _).
    split; [done|].
    split; [repeat case_decide; (congruence || lia)|].
    split; [repeat case_decide; (congruence || lia)|].
    unfold buy_done. destruct (0 <? value msg - q); cbn; apply last_snoc.
  - intros Hover Hrej. by apply (buy_refund_rejected_run w msg amount q).
Qed.

(** Account 7 attaches 0.003 ether for two tokens quoted at 0.002 ether and
    is left 0.002 ether poorer. *)
Lemma buy_charges_exactly_the_quote_witness :
  ∃ w' : World,
    buy (mkMsg 7%N 3000000000000000) 2000000 sale_world = (Return (Some 2000000), w') ∧
    remainingForSaleClear (storage w') = 8000000 ∧
    balanceOf w' 7%N = 4998000000000000000 ∧
    balanceOf w' 100%N = 2000000000000000.
Proof.
  destruct (buy_charges_exactly_the_quote sale_world (mkMsg 7%N 3000000000000000)
              2000000 2000000000000000) as [H _];
    [apply sale_world_reachable|by vm_compute..|].
  destruct H as (w' & Hbuy & Hrem & Hpaid & Hkept & _); [by right|].
  exists w'. split; [exact Hbuy|]. split; [exact Hrem|]. split; [exact Hpaid|exact Hkept].
Defined.

(** C3 as stated fails: the amount is in stock and the payment covers the
    quote, but the caller (a contract that takes no plain transfer) cannot
    be refunded, and [buy] reverts. *)
Lemma buy_overpaid_refund_rejected_counterexample :
  reachable sale_world ∧
  valid_msg sale_world (mkMsg 8%N 3000000000000000) ∧
  0 < 2000000 <= remainingForSaleClear (storage sale_world) ∧
  fst (quoteBuy 2000000 sale_world) = Return 2000000000000000 ∧
  2000000000000000 <= value (mkMsg 8%N 3000000000000000) ∧
  buy (mkMsg 8%N 3000000000000000) 2000000 sale_world = (Revert RefundFailed, sale_world).
Proof.
  split; [apply sale_world_reachable|]. by vm_compute.
Qed.

(** C9 (amended): at a price of 0 the quote is 0, and [buy] of an amount in
    stock succeeds for an attached payment that is zero or whose refund the
    caller takes: the encrypted amount moves from the ledger to the caller,
    [remainingForSaleClear] is decremented by the amount, and the whole
    payment is back with the caller.  When a nonzero payment cannot be
    refunded the call fails with [RefundFailed] and nothing changes. *)
Theorem buy_at_price_zero (w : World) (msg : Msg) (amount : Z) :
  reachable w -> valid_msg w msg -> is_uint64 amount ->
  pricePerTokenWei (storage w) = 0 ->
  0 < amount <= remainingForSaleClear (storage w) ->
  fst (quoteBuy amount w) = Return 0 ∧
  (value msg = 0 ∨ accepts w (sender msg) = true ->
     ∃ w' : World,
       buy msg amount w = (Return (Some amount), w') ∧
       remainingForSaleClear (storage w') =
         remainingForSaleClear (storage w) - amount ∧
       confidentialBalanceOf w' (sender msg) =
         Some (FHE.clear (confidentialBalanceOf w (sender msg)) + amount) ∧
       confidentialBalanceOf w' (this w) =
         Some (FHE.clear (confidentialBalanceOf w (this w)) - amount) ∧
       balanceOf w' (sender msg) = balanceOf w (sender msg) ∧
       balanceOf w' (this w) = balanceOf w (this w)) ∧
  (0 < value msg -> accepts w (sender msg) = false ->
     buy msg amount w = (Revert RefundFailed, w)).
Proof.
  intros Hreach Hmsg Ha Hfree Hamt.
  pose proof (reachable_inv w Hreach) as Hinv.
  assert (Hq : fst (quoteBuy amount w) = Return 0).
  { rewrite quoteBuy_fst by done. unfold quote. rewrite Hfree.
    by rewrite orb_true_r. }
  pose proof Hmsg as (_ & Hne & Hv & _).
  split; [done|]. split.
  - intros Hrefund. exists (buy_done msg amount 0 w).
    split; [apply buy_success_run; try done; apply Hv|].
    rewrite storage_buy_done, !confidentialBalanceOf_buy_done,
      !confidentialBalanceOf_buy_settled, !balanceOf_buy_done by (done || apply Hv).
    split; [done|].
    split; [by rewrite decide_True|].
    split; [by rewrite decide_False, decide_True|].
    split; repeat case_decide; (congruence || lia).
  - intros Hpaid Hrej. by apply (buy_refund_rejected_run w msg amount 0).
Qed.

(** One free token, taken with nothing attached. *)
Lemma buy_at_price_zero_witness :
  ∃ w' : World,
    buy (mkMsg 7%N 0) 1000000 free_world = (Return (Some 1000000), w') ∧
    remainingForSaleClear (storage w') = 9000000 ∧
    confidentialBalanceOf w' 7%N = Some 1000000.
Proof.
  destruct (buy_at_price_zero free_world (mkMsg 7%N 0) 1000000) as (_ & H & _);
    [apply free_world_reachable|by vm_compute..|].
  destruct H as (w' & Hbuy & Hrem & Hbal & _); [by left|].
  exists w'. split; [exact Hbuy|]. split; [exact Hrem|exact Hbal].
Defined.

(** C9 as stated fails: at price 0, five wei attached by a caller that takes
    no refund make the free purchase revert. *)
Lemma buy_at_price_zero_refund_rejected_counterexample :
  reachable free_world ∧
  valid_msg free_world (mkMsg 8%N 5) ∧
  pricePerTokenWei (storage free_world) = 0 ∧
  0 < 1000000 <= remainingForSaleClear (storage free_world) ∧
  buy (mkMsg 8%N 5) 1000000 free_world = (Revert RefundFailed, free_world).
Proof.
  split; [apply free_world_reachable|]. by vm_compute.
Qed.

(** ** The supply counter *)

Lemma buy_return_supply (w w' : World) (msg : Msg) (amount : Z) (h : FHE.euint64) :
  ledger_inv w -> valid_msg w msg -> is_uint64 amount ->
  buy msg amount w = (Return h, w') ->
  0 < amount <= remainingForSaleClear (storage w) ∧
  remainingForSaleClear (storage w') = remainingForSaleClear (storage w) - amount ∧
  totalSupplyClear (storage w') = totalSupplyClear (storage w).
Proof.
  intros Hinv Hmsg Ha.
  destruct (inv_stock w Hinv) as (b & Hb & Hstock).
  rewrite (buy_run w msg amount b) by done.
  destruct (amount =? 0) eqn:Ea; [done|].
  destruct (_ <? amount) eqn:Er; [done|].
  destruct (quote _ _) as [q|e]; [|done].
  destruct (value msg <? q); [done|].
  destruct (_ && _); [done|].
  intros [= _ <-]. rewrite storage_buy_done.
  apply Z.eqb_neq in Ea. apply Z.ltb_ge in Er. destruct Ha.
  split; [lia|]. done.
Qed.

Lemma withdraw_keeps_storage (w w' : World) (caller to : address) (amountWei : Z)
    (r : Outcome unit) :
  _status (storage w) = NOT_ENTERED ->
  withdraw caller to amountWei w = (r, w') -> storage w' = storage w.
Proof.
  intros Hstatus. rewrite withdraw_run by done.
  destruct (negb _); [by intros [= _ <-]|].
  destruct (_ || _); [by intros [= _ <-]|].
  destruct (_ <? amountWei); [by intros [= _ <-]|].
  destruct (accepts w to); intros [= _ <-]; [|done].
  cbn. rewrite <- Hstatus. by destruct (storage w).
Qed.

(** C5: in every reachable world [0 <= remainingForSaleClear <=
    totalSupplyClear]; a successful construction sets both to the requested
    supply, and construction with a supply of 0 fails; a successful [buy] of
    an amount decreases [remainingForSaleClear] by exactly that amount, which
    is positive, and never below 0; [setPricePerTokenWei], [withdraw],
    [quoteBuy] and every failing [buy] leave it unchanged. *)
Theorem remaining_supply_invariant :
  (∀ w : World, reachable w ->
     0 <= remainingForSaleClear (storage w) <= totalSupplyClear (storage w)) ∧
  (∀ self owner_ name_ symbol_ uri supply price bal acc w,
     is_uint64 supply ->
     transact (constructor name_ symbol_ supply price uri owner_)
       (mkWorld self empty_storage bal acc []) = (Return tt, w) ->
     0 < supply ∧
     totalSupplyClear (storage w) = supply ∧
     remainingForSaleClear (storage w) = supply) ∧
  (∀ self owner_ name_ symbol_ uri price bal acc,
     ∃ e, fst (transact (constructor name_ symbol_ 0 price uri owner_)
                 (mkWorld self empty_storage bal acc [])) = Revert e ∧
          (owner_ ≠ address0 -> e = InvalidAmount)) ∧
  (∀ w msg amount h w',
     reachable w -> valid_msg w msg -> is_uint64 amount ->
     buy msg amount w = (Return h, w') ->
     0 < amount ∧
     remainingForSaleClear (storage w') = remainingForSaleClear (storage w) - amount ∧
     0 <= remainingForSaleClear (storage w') < remainingForSaleClear (storage w) ∧
     totalSupplyClear (storage w') = totalSupplyClear (storage w)) ∧
  (∀ w msg amount e w',
     buy msg amount w = (Revert e, w') ->
     remainingForSaleClear (storage w') = remainingForSaleClear (storage w)) ∧
  (∀ w caller newPrice r w',
     setPricePerTokenWei caller newPrice w = (r, w') ->
     remainingForSaleClear (storage w') = remainingForSaleClear (storage w) ∧
     totalSupplyClear (storage w') = totalSupplyClear (storage w)) ∧
  (∀ w caller to amountWei r w',
     reachable w ->
     withdraw caller to amountWei w = (r, w') ->
     remainingForSaleClear (storage w') = remainingForSaleClear (storage w) ∧
     totalSupplyClear (storage w') = totalSupplyClear (storage w)) ∧
  (∀ w amount, snd (quoteBuy amount w) = w).
Proof.
  split; [|split; [|split; [|split; [|split; [|split; [|split]]]]]].
  - intros w Hreach. apply (inv_supply w (reachable_inv w Hreach)).
  - intros self owner_ name_ symbol_ uri supply price bal acc w Hs.
    rewrite constructor_run by done.
    destruct (bool_decide (owner_ = address0)); [done|].
    destruct (supply =? 0) eqn:Es; [done|].
    destruct (bool_decide (self = address0)); [done|].
    intros [= <-]. apply Z.eqb_neq in Es. destruct Hs. cbn. lia.
  - intros self owner_ name_ symbol_ uri price bal acc.
    rewrite constructor_run by (by vm_compute).
    destruct (bool_decide (owner_ = address0)) eqn:Eo.
    + eexists. split; [done|]. apply bool_decide_eq_true in Eo. done.
    + eexists. split; done.
  - intros w msg amount h w' Hreach Hmsg Ha Hbuy.
    pose proof (reachable_inv w Hreach) as Hinv.
    destruct (buy_return_supply w w' msg amount h Hinv Hmsg Ha Hbuy) as (H1 & H2 & H3).
    rewrite H2. repeat split; try done; lia.
  - intros w msg amount e w' Hbuy. unfold buy in Hbuy.
    by rewrite (transact_revert _ _ _ _ Hbuy).
  - intros w caller newPrice r w'. rewrite setPricePerTokenWei_run.
    destruct (bool_decide _); by intros [= _ <-].
  - intros w caller to amountWei r w' Hreach Hrun.
    rewrite (withdraw_keeps_storage w w' caller to amountWei r); [done| |done].
    apply (inv_status w (reachable_inv w Hreach)).
  - intros w amount. apply quoteBuy_pure.
Qed.

(** After the test's purchase of two tokens, eight of ten remain. *)
Lemma remaining_supply_invariant_witness :
  0 <= remainingForSaleClear (storage funded_world) <=
    totalSupplyClear (storage funded_world) ∧
  remainingForSaleClear (storage funded_world) =
    remainingForSaleClear (storage sale_world) - 2000000.
Proof.
  destruct remaining_supply_invariant as (Hinv & _ & _ & Hbuy & _).
  split; [apply Hinv, funded_world_reachable|].
  destruct (Hbuy sale_world (mkMsg 7%N 2000000000000000) 2000000
              (Some 2000000) funded_world) as (_ & H & _);
    [apply sale_world_reachable|by vm_compute..|exact H].
Defined.

(** ** Withdrawal and price *)

(** C6 (amended): [withdraw] by the owner fails with [InvalidWithdraw] when
    the recipient is null, the amount is 0, the amount exceeds the ledger's
    balance, and also when the recipient does not take the transfer: a failed
    withdrawal transfer is not told apart from the other three.  A caller
    that is not the owner gets [OwnableUnauthorizedAccount]; a transfer the
    recipient takes moves exactly the amount.  The distinct transfer-failure
    reason [RefundFailed] is raised by [buy]'s refund only, and the six
    kinds of failure are pairwise distinct values. *)
Theorem withdraw_failures (w : World) (caller to : address) (amountWei : Z) :
  reachable w ->
  (caller ≠ _owner (storage w) ->
     withdraw caller to amountWei w = (Revert (OwnableUnauthorizedAccount caller), w)) ∧
  (caller = _owner (storage w) ->
     to = address0 ∨ amountWei = 0 ∨ balanceOf w (this w) < amountWei ->
     withdraw caller to amountWei w = (Revert InvalidWithdraw, w)) ∧
  (caller = _owner (storage w) ->
     to ≠ address0 -> amountWei ≠ 0 -> amountWei <= balanceOf w (this w) ->
     accepts w to = false ->
     withdraw caller to amountWei w = (Revert InvalidWithdraw, w)) ∧
  (caller = _owner (storage w) ->
     to ≠ address0 -> to ≠ this w -> amountWei ≠ 0 ->
     amountWei <= balanceOf w (this w) -> accepts w to = true ->
     ∃ w', withdraw caller to amountWei w = (Return tt, w') ∧
           balanceOf w' (this w) = balanceOf w (this w) - amountWei ∧
           balanceOf w' to = balanceOf w to + amountWei ∧
           last (logs w') = Some (Withdrawn to amountWei)) ∧
  (∀ e w', withdraw caller to amountWei w = (Revert e, w') -> e ≠ RefundFailed) ∧
  NoDup [InvalidAmount; SoldOut; InsufficientPayment 1 0; RefundFailed;
         InvalidWithdraw; OwnableUnauthorizedAccount caller].
Proof.
  intros Hreach.
  pose proof (reachable_inv w Hreach) as Hinv.
  rewrite withdraw_run by apply Hinv.
  split; [|split; [|split; [|split; [|split]]]].
  - intros Hne. rewrite bool_decide_eq_false_2 by done. done.
  - intros -> Hbad. rewrite bool_decide_eq_true_2 by done. cbn [negb].
    destruct (bool_decide (to = address0)) eqn:Eto; [done|].
    destruct (amountWei =? 0) eqn:Eamt; [done|]. cbn [orb].
    apply bool_decide_eq_false in Eto. apply Z.eqb_neq in Eamt.
    destruct Hbad as [?|[?|Hbal]]; [done..|].
    apply Z.ltb_lt in Hbal. by rewrite Hbal.
  - intros -> Hto Hamt Hbal Hrej. rewrite bool_decide_eq_true_2 by done. cbn [negb].
    rewrite (bool_decide_eq_false_2 _ Hto).
    apply Z.eqb_neq in Hamt. apply Z.ltb_ge in Hbal.
    by rewrite Hamt, Hbal, Hrej.
  - intros -> Hto Hself Hamt Hbal Hacc. rewrite bool_decide_eq_true_2 by done.
    cbn [negb]. rewrite (bool_decide_eq_false_2 _ Hto).
    apply Z.eqb_neq in Hamt. pose proof Hbal as Hbal'. apply Z.ltb_ge in Hbal'.
    rewrite Hamt, Hbal', Hacc. cbn [orb].
    eexists. split; [done|].
    rewrite !balanceOf_with_storage, !balanceOf_push_log, !balanceOf_move_value,
      !balanceOf_with_storage.
    cbn [this with_storage].
    split; [|split].
    + rewrite decide_True, decide_False by done. lia.
    + rewrite decide_False, decide_True by done. lia.
    + cbn. apply last_snoc.
  - intros e w'.
    destruct (negb _); [by intros [= <- _]|].
    destruct (_ || _); [by intros [= <- _]|].
    destruct (_ <? amountWei); [by intros [= <- _]|].
    destruct (accepts w to); [done|by intros [= <- _]].
  - rewrite !NoDup_cons, !not_elem_of_cons.
    repeat split; (done || apply not_elem_of_nil || apply NoDup_nil_2).
Qed.

(** A withdrawal to account 8, which takes no plain transfer, fails with
    [InvalidWithdraw]. *)
Lemma withdraw_failures_witness :
  withdraw 5%N 8%N 1000 funded_world = (Revert InvalidWithdraw, funded_world).
Proof.
  destruct (withdraw_failures funded_world 5%N 8%N 1000 funded_world_reachable)
    as (_ & _ & H & _).
  apply H; by vm_compute.
Defined.

(** C6 as stated fails: the owner's withdrawal to a recipient that takes no
    transfer and the owner's withdrawal of a zero amount fail with the same
    reason, [InvalidWithdraw], which is not the transfer-failure reason. *)
Lemma withdraw_transfer_failure_counterexample :
  reachable funded_world ∧
  _owner (storage funded_world) = 5%N ∧
  accepts funded_world 8%N = false ∧
  0 < 1000 <= balanceOf funded_world (this funded_world) ∧
  fst (withdraw 5%N 8%N 1000 funded_world) = Revert InvalidWithdraw ∧
  fst (withdraw 5%N 7%N 0 funded_world) = Revert InvalidWithdraw ∧
  fst (withdraw 5%N 8%N 1000 funded_world) = fst (withdraw 5%N 7%N 0 funded_world) ∧
  fst (withdraw 5%N 8%N 1000 funded_world) ≠ Revert RefundFailed.
Proof.
  split; [apply funded_world_reachable|]. by vm_compute.
Qed.

(** C10: called by the owner, [setPricePerTokenWei] succeeds for every new
    price; it changes [pricePerTokenWei] and appends one [PriceUpdated] event
    carrying the price before the call and the new price; the supply
    counters, every native balance, every confidential balance and the rest
    of the storage are unchanged. *)
Theorem setPricePerTokenWei_frame (w : World) (caller : address) (newPrice : Z) :
  caller = _owner (storage w) ->
  ∃ w' : World,
    setPricePerTokenWei caller newPrice w = (Return tt, w') ∧
    pricePerTokenWei (storage w') = newPrice ∧
    storage w' = set_pricePerTokenWei newPrice (storage w) ∧
    totalSupplyClear (storage w') = totalSupplyClear (storage w) ∧
    remainingForSaleClear (storage w') = remainingForSaleClear (storage w) ∧
    balance w' = balance w ∧
    (∀ a, balanceOf w' a = balanceOf w a) ∧
    (∀ a, confidentialBalanceOf w' a = confidentialBalanceOf w a) ∧
    _owner (storage w') = _owner (storage w) ∧
    this w' = this w ∧
    logs w' = logs w ++ [PriceUpdated (pricePerTokenWei (storage w)) newPrice].
Proof.
  intros ->. rewrite setPricePerTokenWei_run.
  rewrite bool_decide_eq_true_2 by done.
  eexists. split; [done|]. cbn. repeat split; done.
Qed.

(** The owner sets the price to 0, then to 0 again: the second event
    carries 0 as the old price. *)
Lemma setPricePerTokenWei_frame_witness :
  ∃ w' : World,
    setPricePerTokenWei 5%N 0 free_world = (Return tt, w') ∧
    last (logs w') = Some (PriceUpdated 0 0) ∧
    remainingForSaleClear (storage w') = 10000000.
Proof.
  destruct (setPricePerTokenWei_frame free_world 5%N 0)
    as (w' & Hrun & _ & _ & _ & Hrem & _ & _ & _ & _ & _ & Hlog);
    [by vm_compute|].
  exists w'. split; [exact Hrun|]. split.
  - rewrite Hlog. apply last_snoc.
  - rewrite Hrem. by vm_compute.
Defined.

(** ** The registry *)

Section RegistryProperties.

Variable create_address : address -> N -> address.

(** Two deployments by one deployer at different nonces get different
    addresses. *)
Hypothesis create_address_inj :
  ∀ d n m, create_address d n = create_address d m -> n = m.

Lemma createToken_cases (f f' : Factory) (caller : address) (name_ symbol_ : string)
    (supply price : Z) (r : Outcome address) :
  createToken create_address caller name_ symbol_ supply price f = (r, f') ->
  (∃ e, r = Revert e ∧ f' = f) ∨
  (r = Return (create_address (factory_address f) (nonce f)) ∧
   factory_address f' = factory_address f ∧
   nonce f' = (nonce f + 1)%N ∧
   _allTokens f' = _allTokens f ++ [create_address (factory_address f) (nonce f)] ∧
   _tokensByCreator f' =
     <[caller := getTokensByCreator f caller ++
                   [create_address (factory_address f) (nonce f)]]>
       (_tokensByCreator f)).
Proof.
  unfold createToken.
  destruct (constructor _ _ _ _ _ _ _) as [[[]|e] w]; intros [= <- <-].
  - right. done.
  - left. eauto.
Qed.

Lemma createToken_succeeds (f : Factory) (caller : address) (name_ symbol_ : string)
    (supply price : Z) :
  caller ≠ address0 -> is_uint64 supply -> supply ≠ 0 ->
  create_address (factory_address f) (nonce f) ≠ address0 ->
  ∃ f', createToken create_address caller name_ symbol_ supply price f =
          (Return (create_address (factory_address f) (nonce f)), f').
Proof.
  intros Hc Hs Hs0 Hself. unfold createToken.
  pose proof (constructor_run (create_address (factory_address f) (nonce f)) caller
                name_ symbol_ "" supply price ∅ (fun _ => true) Hs) as Hrun.
  rewrite (bool_decide_eq_false_2 _ Hc), (bool_decide_eq_false_2 _ Hself) in Hrun.
  apply Z.eqb_neq in Hs0. rewrite Hs0 in Hrun.
  unfold transact in Hrun.
  destruct (constructor _ _ _ _ _ _ _) as [[[]|e] w]; [|done].
  eauto.
Qed.

Lemma createToken_preserves_inv (f f' : Factory) (caller : address)
    (name_ symbol_ : string) (supply price : Z) (r : Outcome address) :
  registry_inv create_address f ->
  createToken create_address caller name_ symbol_ supply price f = (r, f') ->
  registry_inv create_address f'.
Proof.
  intros [Hder Hnd Hlisted Hcnd] Hrun.
  destruct (createToken_cases _ _ _ _ _ _ _ _ Hrun)
    as [(e & _ & ->)|(_ & Haddr & Hnonce & Hall & Hby)]; [done|].
  set (token := create_address (factory_address f) (nonce f)) in *.
  assert (Hfresh : token ∉ _allTokens f).
  { intros Hin. destruct (Hder _ Hin) as (k & Hk & Heq).
    apply create_address_inj in Heq. lia. }
  split.
  - intros a. rewrite Hall, Haddr, Hnonce, elem_of_app, list_elem_of_singleton.
    intros [Hin| ->].
    + destruct (Hder _ Hin) as (k & Hk & ->). exists k. split; [lia|done].
    + exists (nonce f). split; [lia|done].
  - rewrite Hall. apply NoDup_app. split; [done|]. split; [|apply NoDup_singleton].
    intros a Ha ->%list_elem_of_singleton. done.
  - intros c l a. rewrite Hby, Hall, elem_of_app, list_elem_of_singleton, lookup_insert.
    case_decide as Hc.
    + intros [= <-]. rewrite elem_of_app, list_elem_of_singleton.
      intros [Hin|?]; [|by right]. left.
      unfold getTokensByCreator in Hin.
      destruct (_tokensByCreator f !! caller) as [l|] eqn:El.
      * by apply (Hlisted caller l).
      * by apply elem_of_nil in Hin.
    + intros Hl Hin. left. by apply (Hlisted c l).
  - intros c l. rewrite Hby, lookup_insert. case_decide as Hc; [|by apply Hcnd].
    intros [= <-]. apply NoDup_app. split; [|split; [|apply NoDup_singleton]].
    + unfold getTokensByCreator.
      destruct (_tokensByCreator f !! caller) as [l|] eqn:El; [|apply NoDup_nil_2].
      by apply (Hcnd caller).
    + intros a Ha ->%list_elem_of_singleton. apply Hfresh.
      unfold getTokensByCreator in Ha.
      destruct (_tokensByCreator f !! caller) as [l|] eqn:El.
      * by apply (Hlisted caller l).
      * by apply elem_of_nil in Ha.
Qed.

Lemma registry_reachable_inv (f : Factory) :
  registry_reachable create_address f -> registry_inv create_address f.
Proof.
  induction 1 as [self|f caller n s supply price r f' _ IH Hrun].
  - split; cbn.
    + intros a Ha. by apply elem_of_nil in Ha.
    + apply NoDup_nil_2.
    + intros c l a Hl. by rewrite lookup_empty in Hl.
    + intros c l Hl. by rewrite lookup_empty in Hl.
  - by apply (createToken_preserves_inv f f' caller n s supply price r).
Qed.

Lemma createToken_grows (f f' : Factory) (caller : address) (name_ symbol_ : string)
    (supply price : Z) (r : Outcome address) :
  createToken create_address caller name_ symbol_ supply price f = (r, f') ->
  getAllTokens f `prefix_of` getAllTokens f' ∧
  ∀ c, getTokensByCreator f c `prefix_of` getTokensByCreator f' c.
Proof.
  intros Hrun.
  destruct (createToken_cases _ _ _ _ _ _ _ _ Hrun)
    as [(e & _ & ->)|(_ & Haddr & Hnonce & Hall & Hby)]; [done|].
  unfold getAllTokens, getTokensByCreator. rewrite Hall, Hby. split.
  - by apply prefix_app_r.
  - intros c. rewrite lookup_insert. case_decide as Hc.
    + subst c. by apply prefix_app_r.
    + done.
Qed.

End RegistryProperties.

Section RegistryClaim.

Variable create_address : address -> N -> address.

Hypothesis create_address_inj :
  ∀ d n m, create_address d n = create_address d m -> n = m.

(** C7: a successful [createToken] appends the new ledger's address at the
    end of the global list and at the end of the caller's list, once each,
    leaves the other creators' lists alone, and the address was not listed
    before; a failing [createToken] changes nothing; in every reachable
    registry the global list has no duplicate and every address in a
    per-creator list occurs exactly once in the global list; and over any
    run of calls the earlier lists are prefixes of the later ones. *)
Theorem registry_lists_consistent :
  (∀ f caller name_ symbol_ supply price token f',
     createToken create_address caller name_ symbol_ supply price f = (Return token, f') ->
     getAllTokens f' = getAllTokens f ++ [token] ∧
     getTokensByCreator f' caller = getTokensByCreator f caller ++ [token] ∧
     (∀ c, c ≠ caller -> getTokensByCreator f' c = getTokensByCreator f c) ∧
     (registry_reachable create_address f -> token ∉ getAllTokens f)) ∧
  (∀ f caller name_ symbol_ supply price e f',
     createToken create_address caller name_ symbol_ supply price f = (Revert e, f') ->
     f' = f) ∧
  (∀ f, registry_reachable create_address f ->
     NoDup (getAllTokens f) ∧
     ∀ c a, a ∈ getTokensByCreator f c ->
       a ∈ getAllTokens f ∧ count_occ N.eq_dec (getAllTokens f) a = 1%nat) ∧
  (∀ f f', registry_steps create_address f f' ->
     getAllTokens f `prefix_of` getAllTokens f' ∧
     ∀ c, getTokensByCreator f c `prefix_of` getTokensByCreator f' c) ∧
  (∀ f caller name_ symbol_ supply price,
     caller ≠ address0 -> is_uint64 supply -> supply ≠ 0 ->
     create_address (factory_address f) (nonce f) ≠ address0 ->
     ∃ f', createToken create_address caller name_ symbol_ supply price f =
             (Return (create_address (factory_address f) (nonce f)), f')).
Proof.
  split; [|split; [|split; [|split]]].
  - intros f caller name_ symbol_ supply price token f' Hrun.
    destruct (createToken_cases _ _ _ _ _ _ _ _ _ Hrun)
      as [(e & ? & _)|(Hr & Haddr & Hnonce & Hall & Hby)]; [done|].
    injection Hr as ->.
    unfold getAllTokens, getTokensByCreator. rewrite Hall, Hby.
    split; [done|]. split; [by rewrite lookup_insert_eq|]. split.
    + intros c Hc. by rewrite lookup_insert_ne.
    + intros Hreach Hin.
      destruct (rinv_derived _ _ (registry_reachable_inv _ create_address_inj f Hreach)
                  _ Hin) as (k & Hk & Heq).
      apply create_address_inj in Heq. lia.
  - intros f caller name_ symbol_ supply price e f' Hrun.
    by destruct (createToken_cases _ _ _ _ _ _ _ _ _ Hrun)
      as [(e' & _ & ->)|(? & _)].
  - intros f Hreach.
    destruct (registry_reachable_inv _ create_address_inj f Hreach)
      as [Hder Hnd Hlisted Hcnd].
    split; [done|]. intros c a Ha.
    assert (Hin : a ∈ getAllTokens f).
    { unfold getTokensByCreator in Ha.
      destruct (_tokensByCreator f !! c) as [l|] eqn:El.
      - by apply (Hlisted c l).
      - by apply elem_of_nil in Ha. }
    split; [done|].
    apply NoDup_count_occ'; [by apply NoDup_ListNoDup|]. by apply list_elem_of_In.
  - intros f f' Hsteps.
    induction Hsteps as [f|f caller n s supply price r f' f'' Hrun _ IH].
    + done.
    + destruct (createToken_grows _ _ _ _ _ _ _ _ _ Hrun) as [H1 H2].
      destruct IH as [H3 H4]. split; [by transitivity (getAllTokens f')|].
      intros c. by transitivity (getTokensByCreator f' c).
  - intros f caller name_ symbol_ supply price. apply createToken_succeeds.
Qed.

End RegistryClaim.

(** Account 5 creates a ledger, then account 6 does: both are listed, in
    that order, each under its creator. *)
Lemma registry_lists_consistent_witness :
  getAllTokens registry_two = getAllTokens registry_one ++ [50002%N] ∧
  getTokensByCreator registry_two 6%N = [50002%N] ∧
  getTokensByCreator registry_two 5%N = [50001%N] ∧
  NoDup (getAllTokens registry_two).
Proof.
  assert (Hinj : ∀ d n m, sample_address d n = sample_address d m -> n = m)
    by (unfold sample_address; intros d n m; lia).
  destruct (registry_lists_consistent sample_address Hinj) as (Hcreate & _ & Hinv & _).
  destruct (Hcreate registry_one 6%N "B"%string "B"%string 20 2 50002%N registry_two)
    as (Hall & Hmine & Hothers & _); [by vm_compute|].
  split; [exact Hall|]. split; [rewrite Hmine; by vm_compute|].
  split; [rewrite Hothers by done; by vm_compute|].
  apply Hinv.
  eapply registry_create;
    [eapply registry_create; [apply registry_deployed|]|];
    apply surjective_pairing.
Defined.

(** * Further properties of the ledger *)

(** ** The quote as a price list *)

Lemma ceil_div_monotone (p p' d : Z) :
  0 < d -> p <= p' -> ceil_div p d <= ceil_div p' d.
Proof.
  intros Hd Hle.
  destruct (ceil_div_bounds p d Hd) as [H1 H2].
  destruct (ceil_div_bounds p' d Hd) as [H3 H4]. nia.
Qed.

Lemma quote_returns (price amount q : Z) :
  quote price amount = Return q ->
  q = (if (amount =? 0) || (price =? 0) then 0
       else ceil_div (amount * price) TOKEN_BASE) ∧
  q <= UINT256_MAX.
Proof.
  unfold quote. destruct ((amount =? 0) || (price =? 0)).
  - intros [= <-]. by vm_compute.
  - destruct (_ <=? _) eqn:E; [|done]. intros [= <-]. by apply Z.leb_le in E.
Qed.

Lemma quote_monotone (price a b qb : Z) :
  0 <= a <= b -> 0 <= price ->
  quote price b = Return qb ->
  ∃ qa, quote price a = Return qa ∧ 0 <= qa <= qb.
Proof.
  intros Hab Hp Hqb.
  pose proof (quote_nonneg price b qb ltac:(lia) Hp Hqb) as Hqb0.
  destruct (quote_returns _ _ _ Hqb) as [Eqb Hfit].
  unfold quote.
  destruct ((a =? 0) || (price =? 0)) eqn:Ea; [eexists; split; [done|lia]|].
  apply orb_false_iff in Ea as [Ea Eprice].
  apply Z.eqb_neq in Ea. rewrite Eprice, orb_false_r in Eqb.
  replace (b =? 0) with false in Eqb by (symmetry; apply Z.eqb_neq; lia).
  assert (Hle : ceil_div (a * price) TOKEN_BASE <= qb).
  { rewrite Eqb. apply ceil_div_monotone; [done|nia]. }
  assert (H0 : 0 <= ceil_div (a * price) TOKEN_BASE).
  { destruct (ceil_div_bounds (a * price) TOKEN_BASE ltac:(done)) as [H1 H2].
    unfold TOKEN_BASE in *. nia. }
  replace (ceil_div (a * price) TOKEN_BASE <=? UINT256_MAX) with true
    by (symmetry; apply Z.leb_le; lia).
  eexists. split; [done|lia].
Qed.

(** X1: a larger amount never costs less: whenever [quoteBuy] returns for an
    amount, it returns for every smaller amount, with a quote that is not
    larger. *)
Theorem quoteBuy_monotone (w : World) (a b qb : Z) :
  is_uint64 a -> is_uint64 b -> is_uint256 (pricePerTokenWei (storage w)) ->
  a <= b ->
  fst (quoteBuy b w) = Return qb ->
  ∃ qa, fst (quoteBuy a w) = Return qa ∧ qa <= qb.
Proof.
  intros Ha Hb Hp Hab. rewrite !quoteBuy_run by done. cbn [fst]. intros Hqb.
  destruct (quote_monotone _ a b qb ltac:(destruct Ha; lia) (proj1 Hp) Hqb)
    as (qa & Hqa & Hle).
  exists qa. split; [done|lia].
Qed.

Lemma quoteBuy_monotone_witness :
  ∃ qa, fst (quoteBuy 1 sale_world) = Return qa ∧ qa <= 2000000000000000.
Proof.
  apply (quoteBuy_monotone sale_world 1 2000000 2000000000000000); by vm_compute.
Defined.

(** X2: buying in two parts costs at least what buying at once costs, and at
    most one wei more: for amounts [a] and [b] whose sum is a 64-bit amount
    with a quote, [quoteBuy (a + b) <= quoteBuy a + quoteBuy b <=
    quoteBuy (a + b) + 1]. *)
Theorem quoteBuy_split (w : World) (a b qab : Z) :
  is_uint64 a -> is_uint64 b -> is_uint64 (a + b) ->
  is_uint256 (pricePerTokenWei (storage w)) ->
  fst (quoteBuy (a + b) w) = Return qab ->
  ∃ qa qb,
    fst (quoteBuy a w) = Return qa ∧ fst (quoteBuy b w) = Return qb ∧
    qab <= qa + qb <= qab + 1.
Proof.
  intros Ha Hb Hab Hp. rewrite !quoteBuy_run by done. cbn [fst]. intros Hq.
  set (price := pricePerTokenWei (storage w)) in *.
  destruct Ha as [Ha0 _], Hb as [Hb0 _], Hp as [Hp0 _].
  destruct (quote_monotone price a (a + b) qab ltac:(lia) Hp0 Hq) as (qa & Hqa & Hqa').
  destruct (quote_monotone price b (a + b) qab ltac:(lia) Hp0 Hq) as (qb & Hqb & Hqb').
  exists qa, qb. split; [done|]. split; [done|].
  destruct (quote_returns _ _ _ Hq) as [Eab _].
  destruct (quote_returns _ _ _ Hqa) as [Ea _].
  destruct (quote_returns _ _ _ Hqb) as [Eb _].
  destruct (price =? 0) eqn:Eprice.
  { rewrite orb_true_r in Eab, Ea, Eb. lia. }
  rewrite orb_false_r in Eab, Ea, Eb. apply Z.eqb_neq in Eprice.
  destruct (ceil_div_bounds (a * price) TOKEN_BASE ltac:(done)) as [A1 A2].
  destruct (ceil_div_bounds (b * price) TOKEN_BASE ltac:(done)) as [B1 B2].
  destruct (ceil_div_bounds ((a + b) * price) TOKEN_BASE ltac:(done)) as [C1 C2].
  unfold TOKEN_BASE in *.
  destruct (a =? 0) eqn:Ea0; destruct (b =? 0) eqn:Eb0;
    destruct (a + b =? 0) eqn:Eab0;
    rewrite ?Z.eqb_eq, ?Z.eqb_neq in Ea0, Eb0, Eab0; subst qa qb qab;
    lia.
Qed.

Lemma quoteBuy_split_witness :
  ∃ qa qb,
    fst (quoteBuy 1 penny_world) = Return qa ∧
    fst (quoteBuy 1 penny_world) = Return qb ∧
    1 <= qa + qb <= 1 + 1.
Proof.
  apply (quoteBuy_split penny_world 1 1 1); by vm_compute.
Defined.

(** X3: whole tokens cost the listed price: for [k] whole tokens
    ([k * 1_000_000] base units) the quote is exactly
    [k * pricePerTokenWei], whenever that fits in 256 bits. *)
Theorem quoteBuy_whole_tokens (w : World) (k : Z) :
  is_uint64 (k * 1000000) -> is_uint256 (pricePerTokenWei (storage w)) ->
  k * pricePerTokenWei (storage w) <= UINT256_MAX ->
  fst (quoteBuy (k * 1000000) w) = Return (k * pricePerTokenWei (storage w)).
Proof.
  intros Hk Hp Hfit. rewrite quoteBuy_run by done. cbn [fst].
  set (price := pricePerTokenWei (storage w)) in *. unfold quote.
  destruct ((k * 1000000 =? 0) || (price =? 0)) eqn:E.
  - apply orb_true_iff in E as [E|E]; apply Z.eqb_eq in E; f_equal; nia.
  - assert (Hc : ceil_div (k * 1000000 * price) TOKEN_BASE = k * price).
    { symmetry. apply ceil_div_unique; unfold TOKEN_BASE; [done|lia|].
      destruct Hk, Hp. apply orb_false_iff in E as [E1 E2].
      apply Z.eqb_neq in E1, E2. nia. }
    rewrite Hc. apply Z.leb_le in Hfit. by rewrite Hfit.
Qed.

Lemma quoteBuy_whole_tokens_witness :
  fst (quoteBuy (3 * 1000000) sale_world) =
    Return (3 * pricePerTokenWei (storage sale_world)).
Proof.
  apply (quoteBuy_whole_tokens sale_world 3); by vm_compute.
Defined.

(** ** What the ledger holds *)

(** X4: tokens are conserved: in every reachable world the confidential
    balances are non-negative and add up to [totalSupplyClear], the ledger's
    own confidential balance covers [remainingForSaleClear], and so the
    balances held outside the ledger add up to at most what was sold. *)
Theorem tokens_conserved (w : World) :
  reachable w ->
  sum_balances (_balances (storage w)) = totalSupplyClear (storage w) ∧
  (∀ a v, confidentialBalanceOf w a = Some v ->
     0 <= v <= totalSupplyClear (storage w)) ∧
  ∃ stock,
    confidentialBalanceOf w (this w) = Some stock ∧
    remainingForSaleClear (storage w) <= stock ∧
    sum_balances (delete (this w) (_balances (storage w))) <=
      totalSupplyClear (storage w) - remainingForSaleClear (storage w).
Proof.
  intros Hreach.
  destruct (reachable_inv w Hreach)
    as [_ _ _ _ _ _ (Hpos & Hsum & _) (stock & Hstock & Hle)].
  split; [done|]. split.
  - intros a v Ha. split; [by eauto|].
    rewrite <- Hsum. by apply (sum_balances_one _ a).
  - exists stock. split; [done|]. split; [done|].
    rewrite (sum_balances_delete _ _ _ Hstock) in Hsum. lia.
Qed.

Lemma tokens_conserved_witness :
  sum_balances (_balances (storage funded_world)) =
    totalSupplyClear (storage funded_world).
Proof.
  apply (tokens_conserved funded_world funded_world_reachable).
Defined.

(** X5: selling out: a purchase of exactly [remainingForSaleClear], paid at
    its quote, succeeds and leaves nothing for sale; from then on every
    purchase of a nonzero amount fails with [SoldOut], whatever is paid. *)
Theorem buy_everything_then_sold_out (w : World) (msg : Msg) (q : Z) :
  reachable w -> valid_msg w msg ->
  0 < remainingForSaleClear (storage w) ->
  fst (quoteBuy (remainingForSaleClear (storage w)) w) = Return q ->
  value msg = q ->
  ∃ w' : World,
    buy msg (remainingForSaleClear (storage w)) w =
      (Return (Some (remainingForSaleClear (storage w))), w') ∧
    remainingForSaleClear (storage w') = 0 ∧
    ∀ msg' amount',
      valid_msg w' msg' -> is_uint64 amount' -> amount' ≠ 0 ->
      buy msg' amount' w' = (Revert SoldOut, w').
Proof.
  intros Hreach Hmsg Hpos Hq Hpaid.
  pose proof (reachable_inv w Hreach) as Hinv.
  set (r := remainingForSaleClear (storage w)) in *.
  assert (Hr : is_uint64 r).
  { destruct Hinv as [_ _ Hs _ _ _ (_ & _ & Hmax) _]. split; lia. }
  assert (Hbuy : buy msg r w = (Return (Some r), buy_done msg r q w)).
  { apply buy_success_run; try done; [lia|by left]. }
  exists (buy_done msg r q w). split; [done|].
  assert (Hzero : remainingForSaleClear (storage (buy_done msg r q w)) = 0).
  { rewrite storage_buy_done. cbn. lia. }
  split; [done|].
  intros msg' amount' Hmsg' Ha' Hne.
  assert (Hreach' : reachable (buy_done msg r q w))
    by (by apply (reach_buy w msg r _ _ Hreach Hmsg Hr Hbuy)).
  pose proof (reachable_inv _ Hreach') as Hinv'.
  destruct (inv_stock _ Hinv') as (b & Hb & _).
  rewrite (buy_run _ msg' amount' b) by done. rewrite Hzero.
  apply Z.eqb_neq in Hne. rewrite Hne.
  replace (0 <? amount') with true; [done|].
  symmetry. apply Z.ltb_lt. apply Z.eqb_neq in Hne. destruct Ha'. lia.
Qed.

Lemma buy_everything_then_sold_out_witness :
  ∃ w' : World,
    buy (mkMsg 7%N 10000000000000000) 10000000 sale_world =
      (Return (Some 10000000), w') ∧
    remainingForSaleClear (storage w') = 0.
Proof.
  destruct (buy_everything_then_sold_out sale_world (mkMsg 7%N 10000000000000000)
              10000000000000000 sale_world_reachable)
    as (w' & Hbuy & Hzero & _); [by vm_compute..|].
  exists w'. split; [exact Hbuy|exact Hzero].
Defined.

(** X6: the refund is sent with the guard taken: in the world in which a
    refund was attempted and refused, the guard is [ENTERED], so a nested
    [buy] by anyone and a nested [withdraw] by the owner revert with
    [ReentrancyGuardReentrantCall] and change nothing; between calls the
    guard is always free. *)
Theorem refund_is_sent_under_guard (w : World) (msg : Msg) (amount q : Z) :
  reachable w -> valid_msg w msg -> is_uint64 amount ->
  0 < amount <= remainingForSaleClear (storage w) ->
  fst (quoteBuy amount w) = Return q -> q < value msg ->
  accepts w (sender msg) = false ->
  _status (storage w) = NOT_ENTERED ∧
  ∃ during : World,
    (receive_value msg;; nonReentrant (buy_body msg amount)) w =
      (Revert RefundFailed, during) ∧
    _status (storage during) = ENTERED ∧
    (∀ msg' amount',
       buy msg' amount' during = (Revert ReentrancyGuardReentrantCall, during)) ∧
    (∀ to amountWei,
       withdraw (_owner (storage during)) to amountWei during =
         (Revert ReentrancyGuardReentrantCall, during)).
Proof.
  intros Hreach Hmsg Ha Hamt Hq Hpaid Hrej.
  pose proof (reachable_inv w Hreach) as Hinv.
  split; [apply Hinv|].
  destruct (buy_refund_rejected_run w msg amount q) as [Hframe _]; try done.
  exists (buy_settled msg amount w).
  assert (Hst : _status (storage (buy_settled msg amount w)) = ENTERED) by reflexivity.
  split; [done|]. split; [done|]. split.
  - intros msg' amount'. by apply buy_reentrant.
  - intros to amountWei. by apply withdraw_reentrant.
Qed.

Lemma refund_is_sent_under_guard_witness :
  ∃ during : World,
    (receive_value (mkMsg 8%N 3000000000000000);;
     nonReentrant (buy_body (mkMsg 8%N 3000000000000000) 2000000)) sale_world =
      (Revert RefundFailed, during) ∧
    _status (storage during) = ENTERED.
Proof.
  destruct (refund_is_sent_under_guard sale_world (mkMsg 8%N 3000000000000000)
              2000000 2000000000000000 sale_world_reachable)
    as (_ & during & Hframe & Hst & _); [by vm_compute..|].
  exists during. split; [exact Hframe|exact Hst].
Defined.



(** ** The owner's controls *)


(** X8: a price change applies to the next purchase: after the owner sets a
    new price, [quoteBuy] quotes at the new price, and a purchase paid at
    that quote succeeds and adds exactly that quote to the ledger's native
    balance; a caller that is not the owner gets
    [OwnableUnauthorizedAccount] and changes neither price nor events. *)
Theorem price_change_applies_to_next_buy (w : World) (newPrice : Z) (msg : Msg)
    (amount q : Z) :
  reachable w -> valid_caller w (_owner (storage w)) -> is_uint256 newPrice ->
  valid_msg w msg -> is_uint64 amount ->
  0 < amount <= remainingForSaleClear (storage w) ->
  quote newPrice amount = Return q -> value msg = q ->
  (∃ w1 w2 : World,
     setPricePerTokenWei (_owner (storage w)) newPrice w = (Return tt, w1) ∧
     fst (quoteBuy amount w1) = Return q ∧
     buy msg amount w1 = (Return (Some amount), w2) ∧
     balanceOf w2 (this w) = balanceOf w (this w) + q ∧
     remainingForSaleClear (storage w2) = remainingForSaleClear (storage w) - amount) ∧
  (∀ caller, caller ≠ _owner (storage w) ->
     setPricePerTokenWei caller newPrice w =
       (Revert (OwnableUnauthorizedAccount caller), w)).
Proof.
  intros Hreach Howner Hp Hmsg Ha Hamt Hq Hpaid. split.
  - set (w1 := with_storage (set_pricePerTokenWei newPrice)
                 (push_log (PriceUpdated (pricePerTokenWei (storage w)) newPrice) w)).
    assert (Hset : setPricePerTokenWei (_owner (storage w)) newPrice w = (Return tt, w1)).
    { rewrite setPricePerTokenWei_run. by rewrite bool_decide_eq_true_2. }
    assert (Hreach1 : reachable w1)
      by (by apply (reach_setPrice w _ newPrice _ _ Hreach Howner Hp Hset)).
    pose proof (reachable_inv w1 Hreach1) as Hinv1.
    assert (Hq1 : fst (quoteBuy amount w1) = Return q)
      by (by rewrite quoteBuy_fst).
    exists w1, (buy_done msg amount q w1).
    split; [done|]. split; [done|]. split.
    { apply buy_success_run; try done; [lia|by left]. }
    rewrite balanceOf_buy_done, storage_buy_done by lia.
    destruct Hmsg as (_ & Hne & _ & _).
    cbn [this w1 with_storage push_log]. split; [|done].
    rewrite decide_False, decide_True by done.
    unfold w1. rewrite balanceOf_with_storage, balanceOf_push_log. lia.
  - intros caller Hne. rewrite setPricePerTokenWei_run.
    by rewrite bool_decide_eq_false_2.
Qed.

Lemma price_change_applies_to_next_buy_witness :
  ∃ w1 w2 : World,
    setPricePerTokenWei 5%N 5 sale_world = (Return tt, w1) ∧
    fst (quoteBuy 1000000 w1) = Return 5 ∧
    buy (mkMsg 7%N 5) 1000000 w1 = (Return (Some 1000000), w2).
Proof.
  destruct (price_change_applies_to_next_buy sale_world 5 (mkMsg 7%N 5) 1000000 5
              sale_world_reachable) as [(w1 & w2 & H1 & H2 & H3 & _) _];
    [by vm_compute..|].
  exists w1, w2. split; [exact H1|]. split; [exact H2|exact H3].
Defined.



(** ** The repository's test, for every supply, price and amount *)



(** ** What the registry deploys *)

Lemma constructor_return (self owner_ : address) (name_ symbol_ uri : string)
    (supply price : Z) (bal : gmap address Z) (acc : address -> bool)
    (u : unit) (w : World) :
  constructor name_ symbol_ supply price uri owner_
    (mkWorld self empty_storage bal acc []) = (Return u, w) ->
  owner_ ≠ address0 ∧ supply ≠ 0 ∧ self ≠ address0 ∧
  w = mkWorld self
        (mkStorage name_ symbol_ uri supply supply price owner_ NOT_ENTERED
           {[self := supply mod 2 ^ 64]} (Some supply))
        bal acc
        [OwnershipTransferred address0 owner_;
         ConfidentialTransfer address0 self (Some supply)].
Proof.
  unfold constructor, ERC7984_constructor, Ownable_constructor,
    _transferOwnership, _mint, _update, require.
  rewrite (bool_decide_eq_true_2 (address0 = address0)) by done.
  mrun. destruct (bool_decide (owner_ = address0)) eqn:Eo; [done|].
  mrun. destruct (supply =? 0) eqn:Es; [done|].
  mrun. destruct (bool_decide (self = address0)) eqn:Eself; [done|].
  mrun. rewrite lookup_empty.
  unfold FHE.add, FHE.clear, FHE.asEuint64.
  change (default 0 None + default 0 (Some supply)) with supply.
  intros [= <-].
  apply bool_decide_eq_false in Eo, Eself. apply Z.eqb_neq in Es.
  repeat split; done.
Qed.

Section RegistryDeployment.

Variable create_address : address -> N -> address.

Hypothesis create_address_inj :
  ∀ d n m, create_address d n = create_address d m -> n = m.

Lemma createToken_return (f f' : Factory) (caller token : address)
    (name_ symbol_ : string) (supply price : Z) :
  createToken create_address caller name_ symbol_ supply price f = (Return token, f') ->
  token = create_address (factory_address f) (nonce f) ∧
  caller ≠ address0 ∧ supply ≠ 0 ∧ token ≠ address0 ∧
  f' = mkFactory (factory_address f) (nonce f + 1)%N (_allTokens f ++ [token])
         (<[caller := getTokensByCreator f caller ++ [token]]> (_tokensByCreator f))
         (<[token := mkStorage name_ symbol_ "" supply supply price caller NOT_ENTERED
                       {[token := supply mod 2 ^ 64]} (Some supply)]> (deployed f))
         (factory_logs f ++ [TokenCreated caller token name_ symbol_ supply price]).
Proof.
  unfold createToken.
  destruct (constructor _ _ _ _ _ _ _) as [[u|e] w] eqn:Hc; [|done].
  intros [= <- <-].
  destruct (constructor_return _ _ _ _ _ _ _ _ _ _ _ Hc) as (Ho & Hs & Hself & ->).
  done.
Qed.

(** X11: what [createToken] deploys: the new ledger is recorded with the
    caller as owner, the given name, symbol, supply and price, an empty
    contract URI, the whole supply for sale and the whole supply as the
    ledger's own confidential balance (nothing goes to the caller); its
    address is the last of [getAllTokens], [allTokensLength] grows by one,
    the last event is [TokenCreated] with the same data, and that ledger is
    a reachable world of the sale. *)
Theorem createToken_deploys_ledger (f f' : Factory) (caller token : address)
    (name_ symbol_ : string) (supply price : Z) :
  is_uint64 supply -> is_uint256 price ->
  createToken create_address caller name_ symbol_ supply price f = (Return token, f') ->
  ∃ st : Storage,
    deployed f' !! token = Some st ∧
    _owner st = caller ∧ _name st = name_ ∧ _symbol st = symbol_ ∧
    _contractURI st = "" ∧
    totalSupplyClear st = supply ∧ remainingForSaleClear st = supply ∧
    pricePerTokenWei st = price ∧
    _balances st = {[token := supply]} ∧
    last (getAllTokens f') = Some token ∧
    allTokensLength f' = allTokensLength f + 1 ∧
    last (factory_logs f') =
      Some (TokenCreated caller token name_ symbol_ supply price) ∧
    ∀ bal acc, 0 <= default 0 (bal !! token) ->
      reachable (mkWorld token st bal acc
                   [OwnershipTransferred address0 caller;
                    ConfidentialTransfer address0 token (Some supply)]).
Proof.
  intros Hs Hp Hrun.
  destruct (createToken_return _ _ _ _ _ _ _ _ Hrun) as (Htoken & Hc & Hs0 & Ht0 & ->).
  rewrite Z.mod_small by (unfold is_uint64, UINT64_MAX in Hs; lia).
  eexists. split; [apply lookup_insert_eq|]. cbn.
  do 8 (split; [reflexivity|]).
  split; [apply last_snoc|]. split.
  { unfold allTokensLength. cbn. rewrite length_app. cbn. lia. }
  split; [apply last_snoc|].
  intros bal acc Hbal.
  apply (reach_deploy token bal acc name_ symbol_ supply price "" caller); try done.
  rewrite constructor_run by done.
  rewrite (bool_decide_eq_false_2 _ Hc), (bool_decide_eq_false_2 _ Ht0).
  apply Z.eqb_neq in Hs0. by rewrite Hs0.
Qed.

(** X12: how [createToken] fails: a supply of 0 is the ledger
    constructor's [InvalidAmount], which [createToken] passes on; nothing
    is listed, counted or logged. *)
Theorem createToken_zero_supply (f : Factory) (caller : address)
    (name_ symbol_ : string) (price : Z) :
  caller ≠ address0 ->
  createToken create_address caller name_ symbol_ 0 price f = (Revert InvalidAmount, f).
Proof.
  intros Hc. unfold createToken.
  pose proof (constructor_run (create_address (factory_address f) (nonce f)) caller
                name_ symbol_ "" 0 price ∅ (fun _ => true) ltac:(by vm_compute)) as Hrun.
  rewrite (bool_decide_eq_false_2 _ Hc) in Hrun. cbn in Hrun.
  unfold transact in Hrun.
  destruct (constructor _ _ _ _ _ _ _) as [[u|e] w]; [done|].
  by injection Hrun as ->.
Qed.

Lemma filter_ext_in {A : Type} (P Q : A -> Prop) `{∀ x, Decision (P x)}
    `{∀ x, Decision (Q x)} (l : list A) :
  (∀ x, x ∈ l -> P x ↔ Q x) -> filter P l = filter Q l.
Proof.
  induction l as [|x l IH]; intros Hext; [done|].
  rewrite !filter_cons.
  assert (Hl : filter P l = filter Q l).
  { apply IH. intros y Hy. apply Hext. by right. }
  destruct (Hext x ltac:(by left)) as [H1 H2].
  destruct (decide (P x)), (decide (Q x)); rewrite Hl; tauto || done.
Qed.

(** The per-creator lists sort the global list by recorded creator. *)
Lemma registry_creators (f : Factory) :
  registry_reachable create_address f ->
  ∀ c, getTokensByCreator f c =
       filter (fun a => creator_of f a = Some c) (getAllTokens f).
Proof.
  intros Hreach.
  induction Hreach as [self|f caller n s supply price r f' Hreach IH Hrun].
  - intros c. unfold getTokensByCreator. cbn. by rewrite lookup_empty.
  - pose proof (registry_reachable_inv _ create_address_inj f Hreach) as Hinv.
    destruct r as [token|e].
    + destruct (createToken_return _ _ _ _ _ _ _ _ Hrun) as (Htoken & Hc & Hs0 & Ht0 & ->).
      assert (Hfresh : token ∉ _allTokens f).
      { intros Hin. destruct (rinv_derived _ _ Hinv _ Hin) as (k & Hk & Heq).
        rewrite Htoken in Heq. apply create_address_inj in Heq. lia. }
      intros c. unfold getTokensByCreator, getAllTokens, creator_of. cbn.
      rewrite filter_app.
      rewrite (filter_ext_in _ (fun a => creator_of f a = Some c) (_allTokens f)).
      2:{ intros a Ha. rewrite lookup_insert_ne; [done|]. by intros ->. }
      fold (getAllTokens f). rewrite <- IH.
      rewrite filter_cons, filter_nil, lookup_insert_eq. cbn.
      rewrite lookup_insert. case_decide as Hcase.
      * subst c. rewrite decide_True by done. done.
      * rewrite decide_False by congruence.
        by rewrite app_nil_r.
    + destruct (createToken_cases _ _ _ _ _ _ _ _ _ Hrun)
        as [(e' & _ & ->)|(? & _)]; done.
Qed.

(** X13: [getTokensByCreator] is the global list filtered by creator: in
    every reachable registry, the list of a creator is exactly the
    subsequence of [getAllTokens] of the ledgers deployed at that creator's
    request, in creation order; every listed ledger is in exactly one
    creator's list, and an account that never created a ledger has the
    empty list. *)
Theorem getTokensByCreator_is_filter (f : Factory) :
  registry_reachable create_address f ->
  (∀ c, getTokensByCreator f c =
        filter (fun a => creator_of f a = Some c) (getAllTokens f)) ∧
  (∀ a, a ∈ getAllTokens f ->
     ∃ c, a ∈ getTokensByCreator f c ∧
          ∀ c', a ∈ getTokensByCreator f c' -> c' = c) ∧
  (∀ c, _tokensByCreator f !! c = None -> getTokensByCreator f c = []).
Proof.
  intros Hreach.
  pose proof (registry_creators f Hreach) as Hfilter.
  split; [done|]. split.
  - intros a Ha.
    assert (Hsome : ∃ c, creator_of f a = Some c).
    { clear Hfilter. revert a Ha.
      induction Hreach as [self|f caller n s supply price r f' Hreach IH Hrun].
      - intros a Ha. by apply elem_of_nil in Ha.
      - intros a. destruct r as [token|e].
        + destruct (createToken_return _ _ _ _ _ _ _ _ Hrun) as (_ & _ & _ & _ & ->).
          unfold getAllTokens, creator_of. cbn.
          rewrite elem_of_app, list_elem_of_singleton, lookup_insert.
          intros [Hin| ->].
          * case_decide; [by eexists|]. by apply IH.
          * rewrite decide_True by done. by eexists.
        + destruct (createToken_cases _ _ _ _ _ _ _ _ _ Hrun)
            as [(e' & _ & ->)|(? & _)]; [apply IH|done]. }
    destruct Hsome as (c & Hc). exists c. split.
    + rewrite Hfilter. by apply list_elem_of_filter.
    + intros c'. rewrite Hfilter. intros [Hc' _]%list_elem_of_filter. congruence.
  - intros c Hnone. unfold getTokensByCreator. by rewrite Hnone.
Qed.

End RegistryDeployment.

Lemma createToken_deploys_ledger_witness :
  ∃ st : Storage,
    deployed registry_one !! 50001%N = Some st ∧
    _owner st = 5%N ∧
    _balances st = {[50001%N := 10]} ∧
    last (getAllTokens registry_one) = Some 50001%N.
Proof.
  destruct (createToken_deploys_ledger sample_address (new_factory 50%N) registry_one
              5%N 50001%N "A" "A" 10 1)
    as (st & H1 & H2 & _ & _ & _ & _ & _ & _ & H3 & H4 & _); [by vm_compute..|].
  exists st. split; [exact H1|]. split; [exact H2|]. split; [exact H3|exact H4].
Defined.

Lemma createToken_zero_supply_witness :
  createToken sample_address 5%N "A" "A" 0 1 (new_factory 50%N) =
    (Revert InvalidAmount, new_factory 50%N).
Proof.
  apply (createToken_zero_supply sample_address (new_factory 50%N) 5%N "A" "A" 1).
  by vm_compute.
Defined.

Lemma getTokensByCreator_is_filter_witness :
  getTokensByCreator registry_two 6%N =
    filter (fun a => creator_of registry_two a = Some 6%N) (getAllTokens registry_two).
Proof.
  assert (Hinj : ∀ d n m, sample_address d n = sample_address d m -> n = m)
    by (unfold sample_address; intros d n m; lia).
  apply (getTokensByCreator_is_filter sample_address Hinj registry_two).
  eapply registry_create;
    [eapply registry_create; [apply registry_deployed|]|];
    apply surjective_pairing.
Defined.

(** * The front end and the command line *)

(** ** Sets and sorting as the marketplace uses them *)

Lemma set_add_all_app (seen l1 l2 : list address) :
  set_add_all seen (l1 ++ l2) = set_add_all (set_add_all seen l1) l2.
Proof.
  revert seen. induction l1 as [|x l1 IH]; intros seen; [done|].
  cbn. destruct (bool_decide (x ∈ seen)); apply IH.
Qed.

Lemma set_add_all_fresh (seen l : list address) :
  NoDup (seen ++ l) -> set_add_all seen l = seen ++ l.
Proof.
  revert seen. induction l as [|x l IH]; intros seen Hnd; cbn.
  - by rewrite app_nil_r.
  - apply NoDup_app in Hnd as (Hseen & Hdisj & Hl).
    rewrite bool_decide_eq_false_2.
    2:{ intros Hin. apply (Hdisj x Hin). by left. }
    rewrite IH; [by rewrite <- app_assoc|].
    rewrite <- app_assoc. cbn. apply NoDup_app. split; [done|]. split; [|done].
    exact Hdisj.
Qed.

Lemma set_add_all_known (seen l : list address) :
  (∀ x, x ∈ l -> x ∈ seen) -> set_add_all seen l = seen.
Proof.
  induction l as [|x l IH]; intros Hin; cbn; [done|].
  rewrite bool_decide_eq_true_2 by (apply Hin; by left).
  apply IH. intros y Hy. apply Hin. by right.
Qed.

Lemma array_from_set_NoDup (l : list address) : NoDup l -> array_from_set l = l.
Proof. intros Hnd. unfold array_from_set. by rewrite set_add_all_fresh. Qed.

Lemma sort_insert_partition {A : Type} (key : A -> bool) (x : A) (l1 l2 : list A) :
  (∀ y, y ∈ l1 -> key y = true) -> (∀ y, y ∈ l2 -> key y = false) ->
  sort_insert (fun a b => Number (key b) - Number (key a)) x (l1 ++ l2) =
    if key x then x :: l1 ++ l2 else l1 ++ x :: l2.
Proof.
  intros H1 H2. induction l1 as [|y l1 IH]; cbn.
  - destruct l2 as [|y l2]; [by destruct (key x)|]. cbn.
    rewrite (H2 y) by (by left). by destruct (key x).
  - rewrite (H1 y) by (by left). destruct (key x) eqn:Ex; cbn; [done|].
    by rewrite IH by (intros z Hz; apply H1; by right).
Qed.

(** Sorting by a flag, flagged first, is a stable partition. *)
Lemma array_sort_by_flag {A : Type} (key : A -> bool) (l : list A) :
  array_sort (fun a b => Number (key b) - Number (key a)) l =
    filter (fun a => key a = true) l ++ filter (fun a => key a = false) l.
Proof.
  induction l as [|x l IH]; [done|].
  unfold array_sort in *. cbn [foldr]. rewrite IH.
  rewrite sort_insert_partition.
  - rewrite !filter_cons. destruct (key x) eqn:Ex.
    + rewrite decide_True, decide_False by done. done.
    + rewrite decide_False, decide_True by done. done.
  - by intros y [Hy _]%list_elem_of_filter.
  - by intros y [Hy _]%list_elem_of_filter.
Qed.

Lemma rows_filter (ledgers : address -> World) (address_ : option address)
    (key : address -> bool) (b : bool) (l : list address) :
  filter (fun r => key (row_address r) = b) (map (read_row ledgers address_) l) =
  map (read_row ledgers address_) (filter (fun a => key a = b) l).
Proof.
  induction l as [|x l IH]; [done|].
  cbn [map]. rewrite !filter_cons. cbn [row_address read_row].
  destruct (decide (key x = b)); cbn [map]; by rewrite IH.
Qed.

Lemma filter_all {A : Type} (P : A -> Prop) `{∀ x, Decision (P x)} (l : list A) :
  (∀ x, x ∈ l -> P x) -> filter P l = l.
Proof.
  induction l as [|x l IH]; intros Hall; [done|].
  rewrite filter_cons, decide_True by (apply Hall; by left).
  rewrite IH; [done|]. intros y Hy. apply Hall. by right.
Qed.

Lemma filter_none {A : Type} (P : A -> Prop) `{∀ x, Decision (P x)} (l : list A) :
  (∀ x, x ∈ l -> ¬ P x) -> filter P l = [].
Proof.
  induction l as [|x l IH]; intros Hnone; [done|].
  rewrite filter_cons, decide_False by (apply Hnone; by left).
  apply IH. intros y Hy. apply Hnone. by right.
Qed.

Section Marketplace.

Variable create_address : address -> N -> address.

Hypothesis create_address_inj :
  ∀ d n m, create_address d n = create_address d m -> n = m.

(** X14: what the marketplace lists: for a reachable registry, [loadTokens]
    shows one row per ledger of [getAllTokens] and no other, each read from
    its ledger; the ledgers the connected account created come first, in
    creation order, then the others in creation order; the header counts
    all ledgers and the account's own; and the load ends with no error and
    not loading.  Without a public client or a valid registry address it
    shows a message and keeps the rows it had. *)
Theorem loadTokens_lists_registry (wallet : Wallet) (f : Factory)
    (ledgers : address -> World) (market : Marketplace) :
  registry_reachable create_address f ->
  let own := match account wallet with
             | Some a => getTokensByCreator f a
             | None => []
             end in
  let shown := own ++ filter (fun a => a ∉ own) (getAllTokens f) in
  (publicClient wallet = true ->
     loadTokens wallet (Some f) ledgers market =
       mkMarketplace (map (read_row ledgers (account wallet)) shown) own None false ∧
     stats (loadTokens wallet (Some f) ledgers market) =
       (length (getAllTokens f), length own) ∧
     NoDup shown ∧ (∀ a, a ∈ shown ↔ a ∈ getAllTokens f)) ∧
  (publicClient wallet = false ->
     tokens (loadTokens wallet (Some f) ledgers market) = tokens market ∧
     market_error (loadTokens wallet (Some f) ledgers market) =
       Some (Message "Public client not available.")) ∧
  (publicClient wallet = true ->
     tokens (loadTokens wallet None ledgers market) = tokens market ∧
     market_error (loadTokens wallet None ledgers market) =
       Some (Message "Enter a valid factory address.")).
Proof.
  intros Hreach own shown.
  pose proof (registry_reachable_inv _ create_address_inj f Hreach)
    as [_ Hnd Hlisted Hcnd].
  assert (Hown_nd : NoDup own).
  { subst own. destruct (account wallet) as [a|]; [|apply NoDup_nil_2].
    unfold getTokensByCreator.
    destruct (_tokensByCreator f !! a) as [l|] eqn:El; [|apply NoDup_nil_2].
    by apply (Hcnd a). }
  assert (Hown_in : ∀ x, x ∈ own -> x ∈ getAllTokens f).
  { subst own. destruct (account wallet) as [a|]; [|by intros x ?%elem_of_nil].
    unfold getTokensByCreator.
    destruct (_tokensByCreator f !! a) as [l|] eqn:El; [|by intros x ?%elem_of_nil].
    intros x. by apply (Hlisted a l). }
  assert (Hown_filter : filter (fun a => a ∈ own) (getAllTokens f) = own).
  { subst own. destruct (account wallet) as [a|].
    - etrans; [|symmetry; apply (registry_creators _ create_address_inj f Hreach a)].
      apply filter_ext_in. intros x Hx.
      rewrite (registry_creators _ create_address_inj f Hreach a).
      rewrite list_elem_of_filter. tauto.
    - apply filter_none. intros x _. apply not_elem_of_nil. }
  assert (Hshown_in : ∀ a, a ∈ shown ↔ a ∈ getAllTokens f).
  { intros a. unfold shown. rewrite elem_of_app, list_elem_of_filter.
    split; [intros [?|[_ ?]]; auto|].
    intros Ha. destruct (decide (a ∈ own)); auto. }
  assert (Hshown_nd : NoDup shown).
  { unfold shown. apply NoDup_app. split; [done|]. split.
    - by intros x Hx [Hnot _]%list_elem_of_filter.
    - by apply NoDup_filter. }
  assert (Hload : publicClient wallet = true ->
            loadTokens wallet (Some f) ledgers market =
              mkMarketplace (map (read_row ledgers (account wallet)) shown) own None false).
  { intros Hpc. unfold loadTokens. rewrite Hpc. cbn [negb].
    fold own.
    assert (Hunique : array_from_set (getAllTokens f ++ own) = getAllTokens f).
    { unfold array_from_set. rewrite set_add_all_app.
      rewrite (set_add_all_fresh [] (getAllTokens f)) by exact Hnd. cbn [app].
      by apply set_add_all_known. }
    rewrite Hunique, (array_from_set_NoDup own Hown_nd).
    f_equal.
    rewrite (array_sort_by_flag (fun r => set_has own (row_address r))).
    unfold shown. rewrite map_app. f_equal.
    - rewrite (rows_filter ledgers (account wallet) (set_has own) true).
      f_equal. etrans; [|exact Hown_filter].
      apply filter_ext_in. intros x _. apply bool_decide_eq_true.
    - rewrite (rows_filter ledgers (account wallet) (set_has own) false).
      f_equal. apply filter_ext_in. intros x _. apply bool_decide_eq_false. }
  split; [|split].
  - intros Hpc. rewrite (Hload Hpc). split; [done|]. split; [|done].
    unfold stats. cbn [tokens myTokenAddresses]. f_equal.
    + rewrite length_map. unfold shown. rewrite length_app.
      rewrite <- Hown_filter at 1.
      rewrite <- (Permutation_length (filter_app_complement (fun a => a ∈ own)
                                        (getAllTokens f))).
      by rewrite length_app.
    + rewrite (rows_filter ledgers (account wallet) (set_has own) true).
      rewrite length_map. f_equal.
      unfold shown. rewrite filter_app.
      rewrite (filter_all _ own) by (intros x Hx; by apply bool_decide_eq_true).
      rewrite filter_none; [by rewrite app_nil_r|].
      intros x [Hx _]%list_elem_of_filter. unfold set_has.
      by rewrite bool_decide_eq_true.
  - intros Hpc. unfold loadTokens. by rewrite Hpc.
  - intros Hpc. unfold loadTokens. by rewrite Hpc.
Qed.

End Marketplace.

(** Account 6 connects: its ledger is shown first, then account 5's. *)
Lemma loadTokens_lists_registry_witness :
  map row_address
    (tokens (loadTokens (mkWallet (Some 6%N) true true true) (Some registry_two)
               (fun _ => sale_world) (mkMarketplace [] [] None false))) =
    [50002%N; 50001%N] ∧
  stats (loadTokens (mkWallet (Some 6%N) true true true) (Some registry_two)
           (fun _ => sale_world) (mkMarketplace [] [] None false)) = (2%nat, 1%nat).
Proof.
  assert (Hinj : ∀ d n m, sample_address d n = sample_address d m -> n = m)
    by (unfold sample_address; intros d n m; lia).
  assert (Hreach : registry_reachable sample_address registry_two).
  { eapply registry_create;
      [eapply registry_create; [apply registry_deployed|]|];
      apply surjective_pairing. }
  destruct (loadTokens_lists_registry sample_address Hinj
              (mkWallet (Some 6%N) true true true) registry_two
              (fun _ => sale_world) (mkMarketplace [] [] None false) Hreach)
    as [H _].
  destruct (H eq_refl) as (Hload & Hstats & _).
  split; [rewrite Hload; by vm_compute|rewrite Hstats; by vm_compute].
Defined.

(** ** The buy form and the buy task *)

Lemma MAX_UINT64_eq : MAX_UINT64 = UINT64_MAX.
Proof. reflexivity. Qed.

(** [buy] at exactly the quote, seen from the caller. *)
Lemma buy_at_quote (w : World) (a : address) (amount q : Z) :
  reachable w -> valid_caller w a -> is_uint64 amount ->
  fst (quoteBuy amount w) = Return q -> q <= balanceOf w a ->
  buy (mkMsg a q) amount w =
    if amount =? 0 then (Revert InvalidAmount, w)
    else if remainingForSaleClear (storage w) <? amount then (Revert SoldOut, w)
    else (Return (Some amount), buy_done (mkMsg a q) amount q w).
Proof.
  intros Hreach [Ha0 Hathis] Hamt Hq Hfunds.
  pose proof (reachable_inv w Hreach) as Hinv.
  destruct (inv_stock w Hinv) as (b & Hb & Hstock).
  rewrite quoteBuy_fst in Hq by done.
  destruct (quote_returns _ _ _ Hq) as [_ Hqmax].
  pose proof (quote_nonneg _ _ _ (proj1 Hamt) (proj1 (inv_price w Hinv)) Hq) as Hq0.
  assert (Hmsg : valid_msg w (mkMsg a q)) by (repeat split; done).
  rewrite (buy_run w (mkMsg a q) amount b) by done. rewrite Hq. cbn [value sender].
  destruct (amount =? 0) eqn:Ea; [done|].
  destruct (_ <? amount) eqn:Er; [done|].
  rewrite Z.ltb_irrefl, Z.sub_diag. cbn.
  apply Z.ltb_ge in Er. unfold moved_amount.
  replace (amount <=? b) with true by (symmetry; apply Z.leb_le; lia). done.
Qed.

(** X15: a purchase the form lets through goes through: with a connected
    wallet, a row that shows the ledger's current remaining supply, an
    amount typed that parses to [0 < amount <= remaining], a quote that
    [quoteBuy] returns and that the account holds, [TokenCard]'s [buy]
    ends with no error, the transaction recorded and [isBuying] off; the
    ledger sold exactly that amount for exactly the quote, whether or not
    the account could have taken a refund. *)
Theorem TokenCard_buy_goes_through (a : address) (token : TokenRow) (amount q : Z)
    (panel : BuyPanel) (w : World) :
  reachable w -> valid_caller w a ->
  row_remainingForSaleClear token = remainingForSaleClear (storage w) ->
  0 < amount <= remainingForSaleClear (storage w) ->
  fst (quoteBuy amount w) = Return q -> q <= balanceOf w a ->
  ∃ w' : World,
    TokenCard_buy (mkWallet (Some a) true true true) token (Some amount) panel w =
      (mkBuyPanel None (Some (mkBuyTx a amount q)) false, w') ∧
    remainingForSaleClear (storage w') = remainingForSaleClear (storage w) - amount ∧
    confidentialBalanceOf w' a = Some (FHE.clear (confidentialBalanceOf w a) + amount) ∧
    balanceOf w' a = balanceOf w a - q ∧
    balanceOf w' (this w) = balanceOf w (this w) + q.
Proof.
  intros Hreach Hcaller Hrow Hamt Hq Hfunds.
  pose proof (reachable_inv w Hreach) as Hinv.
  assert (Ha : is_uint64 amount).
  { destruct Hinv as [_ _ Hs _ _ _ (_ & _ & Hmax) _]. split; lia. }
  destruct (quote_returns _ _ _ (eq_trans (eq_sym (quoteBuy_fst w amount Hinv Ha)) Hq))
    as [_ Hqmax].
  pose proof (quote_nonneg _ _ _ (proj1 Ha) (proj1 (inv_price w Hinv))
                (eq_trans (eq_sym (quoteBuy_fst w amount Hinv Ha)) Hq)) as Hq0.
  exists (buy_done (mkMsg a q) amount q w).
  split.
  - unfold TokenCard_buy. cbn [account publicClient signerPromise signer negb].
    rewrite MAX_UINT64_eq, Hrow, Hq.
    replace (amount <=? 0) with false by (symmetry; apply Z.leb_gt; lia).
    replace (UINT64_MAX <? amount) with false
      by (symmetry; apply Z.ltb_ge; apply Ha).
    replace (remainingForSaleClear (storage w) <? amount) with false
      by (symmetry; apply Z.ltb_ge; lia).
    replace (balanceOf w a <? q) with false by (symmetry; apply Z.ltb_ge; lia).
    cbn [orb]. rewrite (buy_at_quote w a amount q) by done.
    replace (amount =? 0) with false by (symmetry; apply Z.eqb_neq; lia).
    replace (remainingForSaleClear (storage w) <? amount) with false
      by (symmetry; apply Z.ltb_ge; lia).
    done.
  - assert (Hmsg : valid_msg w (mkMsg a q)).
    { destruct Hcaller. repeat split; done. }
    rewrite storage_buy_done, confidentialBalanceOf_buy_done,
      (confidentialBalanceOf_buy_settled w (mkMsg a q)), !balanceOf_buy_done by done.
    cbn [sender value].
    destruct Hcaller as [_ Hne].
    split; [done|]. split; [by rewrite decide_True|].
    split; repeat case_decide; (congruence || lia).
Qed.

(** Account 8 takes no plain transfer, and still buys through the form. *)
Lemma TokenCard_buy_goes_through_witness :
  ∃ w' : World,
    TokenCard_buy (mkWallet (Some 8%N) true true true)
      (read_row (fun _ => sale_world) (Some 8%N) 100%N) (Some 2000000)
      (mkBuyPanel None None false) sale_world =
      (mkBuyPanel None (Some (mkBuyTx 8%N 2000000 2000000000000000)) false, w') ∧
    remainingForSaleClear (storage w') = 8000000.
Proof.
  destruct (TokenCard_buy_goes_through 8%N
              (read_row (fun _ => sale_world) (Some 8%N) 100%N) 2000000
              2000000000000000 (mkBuyPanel None None false) sale_world
              sale_world_reachable) as (w' & H1 & H2 & _); [by vm_compute..|].
  exists w'. split; [exact H1|]. rewrite H2. by vm_compute.
Defined.



(** X17: the buy task has no checks of its own and leans on the ledger's:
    for a signer that holds the quote, [task:token:buy] fails with the
    ledger's [InvalidAmount] for the amount 0, with [SoldOut] for an amount
    above the remaining supply, and otherwise buys exactly the amount for
    exactly the quote; an amount outside 64 bits never reaches the chain. *)
Theorem task_token_buy_outcomes (signer_ : address) (amount : Z) (w : World) :
  reachable w -> valid_caller w signer_ -> 0 <= balanceOf w signer_ ->
  (¬ is_uint64 amount -> task_token_buy signer_ amount w = (Some ValueOutOfBounds, w)) ∧
  (amount = 0 ->
     task_token_buy signer_ amount w = (Some (Reverted InvalidAmount), w)) ∧
  (∀ q, is_uint64 amount -> remainingForSaleClear (storage w) < amount ->
     fst (quoteBuy amount w) = Return q -> q <= balanceOf w signer_ ->
     task_token_buy signer_ amount w = (Some (Reverted SoldOut), w)) ∧
  (∀ q, 0 < amount <= remainingForSaleClear (storage w) ->
     fst (quoteBuy amount w) = Return q -> q <= balanceOf w signer_ ->
     ∃ w', task_token_buy signer_ amount w = (None, w') ∧
           remainingForSaleClear (storage w') =
             remainingForSaleClear (storage w) - amount ∧
           balanceOf w' signer_ = balanceOf w signer_ - q ∧
           balanceOf w' (this w) = balanceOf w (this w) + q).
Proof.
  intros Hreach Hcaller Hbal.
  pose proof (reachable_inv w Hreach) as Hinv.
  unfold task_token_buy.
  split; [|split; [|split]].
  - intros Hout. replace ((0 <=? amount) && (amount <=? UINT64_MAX)) with false; [done|].
    symmetry. apply not_true_is_false. intros [H1 H2]%andb_true_iff.
    apply Hout. apply Z.leb_le in H1, H2. by split.
  - intros ->. cbn [negb andb Z.leb Z.compare].
    change ((0 <=? 0) && (0 <=? UINT64_MAX)) with true. cbn [negb].
    assert (Hq : fst (quoteBuy 0 w) = Return 0) by reflexivity.
    rewrite Hq.
    replace (balanceOf w signer_ <? 0) with false by (symmetry; apply Z.ltb_ge; lia).
    rewrite (buy_at_quote w signer_ 0 0); try done; by vm_compute.
  - intros q Ha Hsold Hq Hfunds.
    replace ((0 <=? amount) && (amount <=? UINT64_MAX)) with true
      by (symmetry; apply andb_true_iff; split; apply Z.leb_le; apply Ha).
    cbn [negb]. rewrite Hq.
    replace (balanceOf w signer_ <? q) with false by (symmetry; apply Z.ltb_ge; lia).
    rewrite (buy_at_quote w signer_ amount q) by done.
    destruct (amount =? 0) eqn:E0.
    { apply Z.eqb_eq in E0. destruct (inv_supply w Hinv). lia. }
    apply Z.ltb_lt in Hsold. by rewrite Hsold.
  - intros q Hamt Hq Hfunds.
    assert (Ha : is_uint64 amount).
    { destruct Hinv as [_ _ Hs _ _ _ (_ & _ & Hmax) _]. split; lia. }
    replace ((0 <=? amount) && (amount <=? UINT64_MAX)) with true
      by (symmetry; apply andb_true_iff; split; apply Z.leb_le; apply Ha).
    cbn [negb]. rewrite Hq.
    replace (balanceOf w signer_ <? q) with false by (symmetry; apply Z.ltb_ge; lia).
    rewrite (buy_at_quote w signer_ amount q) by done.
    replace (amount =? 0) with false by (symmetry; apply Z.eqb_neq; lia).
    replace (remainingForSaleClear (storage w) <? amount) with false
      by (symmetry; apply Z.ltb_ge; lia).
    eexists. split; [done|].
    rewrite storage_buy_done, !balanceOf_buy_done by done.
    cbn [sender]. destruct Hcaller as [_ Hne].
    split; [done|]. split; repeat case_decide; (congruence || lia).
Qed.

Lemma task_token_buy_outcomes_witness :
  task_token_buy 7%N 0 sale_world = (Some (Reverted InvalidAmount), sale_world).
Proof.
  destruct (task_token_buy_outcomes 7%N 0 sale_world sale_world_reachable)
    as (_ & H & _); [by vm_compute..|].
  by apply H.
Defined.

(** ** The creation form *)

Section TokenCreateProperties.

Variable create_address : address -> N -> address.
Variable trim : string -> string.

Lemma created_token_of_receipt (caller : address) (name_ symbol_ : string)
    (supply price : Z) (f f' : Factory) (token : address) :
  createToken create_address caller name_ symbol_ supply price f = (Return token, f') ->
  created_token (createToken_receipt create_address caller name_ symbol_ supply price f) =
    Some token.
Proof.
  unfold createToken, createToken_receipt.
  destruct (constructor _ _ _ _ _ _ _) as [[u|e] w] eqn:Hc; [|done].
  intros [= <- _].
  destruct (constructor_return _ _ _ _ _ _ _ _ _ _ _ Hc) as (_ & _ & _ & ->).
  reflexivity.
Qed.

(** X18: a ledger the form lets through is created and found: with a
    connected wallet and signer, a registry, a name and a symbol that are
    not blank, a supply with [0 < supply <= 2 ^ 64 - 1] and a price in 256
    bits, [TokenCreate]'s [submit] calls [createToken] with the trimmed name
    and symbol, ends with no error and [isSubmitting] off, and the address
    it reads back from the receipt's [TokenCreated] log is the one
    [createToken] returned, the last of [getAllTokens] and of the
    account's own list. *)
Theorem TokenCreate_submit_creates (a : address) (f : Factory) (name_ symbol_ : string)
    (supply price : Z) (panel : CreatePanel) :
  a ≠ address0 -> create_address (factory_address f) (nonce f) ≠ address0 ->
  trim name_ ≠ "" -> trim symbol_ ≠ "" ->
  0 < supply <= MAX_UINT64 -> is_uint256 price ->
  ∃ token f',
    TokenCreate_submit create_address trim (mkWallet (Some a) true true true) (Some f)
      name_ symbol_ (Some supply) (Some price) panel =
      (mkCreatePanel None (Some token) (Some a) false, Some f') ∧
    createToken create_address a (trim name_) (trim symbol_) supply price f =
      (Return token, f') ∧
    last (getAllTokens f') = Some token ∧
    last (getTokensByCreator f' a) = Some token.
Proof.
  intros Ha Htoken Hname Hsymbol Hsupply Hprice.
  rewrite MAX_UINT64_eq in Hsupply.
  destruct (createToken_succeeds create_address f a (trim name_) (trim symbol_)
              supply price Ha ltac:(split; lia) ltac:(lia) Htoken) as [f' Hcreate].
  exists (create_address (factory_address f) (nonce f)), f'.
  split; [|split; [done|]].
  - unfold TokenCreate_submit. cbn [account publicClient signerPromise signer negb].
    rewrite !bool_decide_eq_false_2 by done. cbn [orb].
    rewrite MAX_UINT64_eq.
    replace (supply <=? 0) with false by (symmetry; apply Z.leb_gt; lia).
    replace (UINT64_MAX <? supply) with false by (symmetry; apply Z.ltb_ge; lia).
    cbn [orb].
    replace ((0 <=? price) && (price <=? UINT256_MAX)) with true
      by (symmetry; apply andb_true_iff; split; apply Z.leb_le; apply Hprice).
    cbn [negb]. rewrite Hcreate.
    by rewrite (created_token_of_receipt _ _ _ _ _ _ _ _ Hcreate).
  - destruct (createToken_return _ _ _ _ _ _ _ _ _ Hcreate) as (_ & _ & _ & _ & ->).
    unfold getAllTokens, getTokensByCreator. cbn.
    rewrite lookup_insert_eq. cbn. split; apply last_snoc.
Qed.

(** X19: what the creation form never sends: a supply that is not positive
    or exceeds [2 ^ 64 - 1], a blank name or a blank symbol is stopped with
    a message and the registry is not called; so the constructor's
    [InvalidAmount] never reaches the user; and whenever the form ends with
    an error the registry is as it was. *)
Theorem TokenCreate_submit_failures (wallet : Wallet) (f : Factory)
    (name_ symbol_ : string) (supply price : option Z) (panel : CreatePanel) :
  let result := TokenCreate_submit create_address trim wallet (Some f)
                  name_ symbol_ supply price panel in
  (create_error (fst result) ≠ None ->
     snd result = Some f ∧ createdToken (fst result) = None) ∧
  create_error (fst result) ≠ Some (Thrown (Reverted InvalidAmount)) ∧
  (∀ a s, account wallet = Some a -> signerPromise wallet = true ->
     supply = Some s ->
     (trim name_ = "" ∨ trim symbol_ = "" ->
        create_error (fst result) = Some (Message "Token name and symbol are required.")) ∧
     (trim name_ ≠ "" -> trim symbol_ ≠ "" -> s <= 0 ∨ MAX_UINT64 < s ->
        create_error (fst result) =
          Some (Message "Total supply must fit in uint64 and be greater than 0."))).
Proof.
  intros result. subst result. unfold TokenCreate_submit.
  destruct (account wallet) as [a|] eqn:Eacc.
  2:{ cbn. split; [done|]. split; [done|]. by intros ? ? [=]. }
  destruct (signerPromise wallet) eqn:Esp; cbn [negb].
  2:{ cbn. split; [done|]. split; [done|]. by intros ? ? _ [=]. }
  destruct (bool_decide (trim name_ = "") || bool_decide (trim symbol_ = "")) eqn:Eblank.
  { cbn. split; [done|]. split; [done|].
    intros a' s _ _ _. split; [done|].
    intros Hn Hs. apply orb_true_iff in Eblank as [E|E];
      apply bool_decide_eq_true in E; done. }
  apply orb_false_iff in Eblank as [En Es].
  apply bool_decide_eq_false in En, Es.
  destruct supply as [s|].
  2:{ cbn. split; [done|]. split; [done|]. by intros ? ? _ _ [=]. }
  rewrite MAX_UINT64_eq.
  destruct ((s <=? 0) || (UINT64_MAX <? s)) eqn:Erange.
  { cbn. split; [done|]. split; [done|].
    intros a' s' _ _ [= <-]. split; [by intros [?|?]|done]. }
  apply orb_false_iff in Erange as [E1 E2].
  apply Z.leb_gt in E1. apply Z.ltb_ge in E2.
  assert (Hrest : ∀ (X Y : Prop) a' s',
            Some a = Some a' -> true = true -> Some s = Some s' ->
            (trim name_ = "" ∨ trim symbol_ = "" -> X) ∧
            (trim name_ ≠ "" -> trim symbol_ ≠ "" -> s' <= 0 ∨ UINT64_MAX < s' -> Y)).
  { intros X Y a' s' _ _ [= <-]. split; [by intros [?|?]|]. intros _ _ [?|?]; lia. }
  destruct price as [p|].
  2:{ cbn. split; [done|]. split; [done|]. apply Hrest. }
  destruct (signer wallet); cbn [negb].
  2:{ cbn. split; [done|]. split; [done|]. apply Hrest. }
  destruct ((0 <=? p) && (p <=? UINT256_MAX)); cbn [negb].
  2:{ cbn. split; [done|]. split; [done|]. apply Hrest. }
  destruct (createToken _ _ _ _ _ _ _) as [[token|e] f'] eqn:Hcreate.
  - cbn. split; [done|]. split; [done|]. apply Hrest.
  - cbn. split; [done|]. split; [|apply Hrest].
    intros [= ->].
    unfold createToken in Hcreate.
    destruct (constructor _ _ _ _ _ _ _) as [[u|e'] w] eqn:Hc; [done|].
    injection Hcreate as -> _.
    pose proof (constructor_run (create_address (factory_address f) (nonce f)) a
                  (trim name_) (trim symbol_) "" s p ∅ (fun _ => true)
                  ltac:(split; lia)) as Hrun.
    unfold transact in Hrun. rewrite Hc in Hrun.
    destruct (bool_decide (a = address0)); [done|].
    replace (s =? 0) with false in Hrun by (symmetry; apply Z.eqb_neq; lia).
    destruct (bool_decide (_ = address0)); done.
Qed.

End TokenCreateProperties.

Lemma TokenCreate_submit_creates_witness :
  ∃ f',
    TokenCreate_submit sample_address (fun s => s) (mkWallet (Some 5%N) true true true)
      (Some (new_factory 50%N)) "A" "A" (Some 10) (Some 1)
      (mkCreatePanel None None None false) =
      (mkCreatePanel None (Some 50001%N) (Some 5%N) false, Some f') ∧
    last (getAllTokens f') = Some 50001%N.
Proof.
  destruct (TokenCreate_submit_creates sample_address (fun s => s) 5%N (new_factory 50%N)
              "A" "A" 10 1 (mkCreatePanel None None None false))
    as (token & f' & H1 & H2 & H3 & _); [by vm_compute..|].
  assert (Htoken : token = 50001%N).
  { vm_compute in H2. by injection H2 as <- _. }
  subst token. exists f'. split; [exact H1|exact H3].
Defined.

Lemma TokenCreate_submit_failures_witness :
  create_error
    (fst (TokenCreate_submit sample_address (fun s => s)
            (mkWallet (Some 5%N) true true true) (Some (new_factory 50%N))
            "A" "A" (Some 0) (Some 1) (mkCreatePanel None None None false))) =
    Some (Message "Total supply must fit in uint64 and be greater than 0.").
Proof.
  destruct (TokenCreate_submit_failures sample_address (fun s => s)
              (mkWallet (Some 5%N) true true true) (new_factory 50%N)
              "A" "A" (Some 0) (Some 1) (mkCreatePanel None None None false))
    as (_ & _ & H).
  destruct (H 5%N 0 eq_refl eq_refl eq_refl) as [_ H'].
  apply H'; [done|done|]. left. lia.
Defined.

(** ** The events as a cash book *)

Lemma net_collected_app (l1 l2 : list Event) :
  net_collected (l1 ++ l2) = net_collected l1 + net_collected l2.
Proof.
  induction l1 as [|e l1 IH]; cbn; [done|]. unfold net_collected in *. lia.
Qed.

(** X20: the events account for every wei: across any call of [buy],
    [withdraw] or [setPricePerTokenWei], successful or not, the ledger's
    native balance changes by exactly what the events emitted by the call
    say: plus the required payment of a [TokenPurchased], minus the amount
    of a [Withdrawn].  (The ledger declares no [receive] function, so it
    takes no plain transfer itself.) *)
Theorem events_account_for_value (w : World) :
  reachable w -> accepts w (this w) = false ->
  (∀ msg amount r w',
     valid_msg w msg -> is_uint64 amount -> buy msg amount w = (r, w') ->
     balanceOf w' (this w') - net_collected (logs w') =
       balanceOf w (this w) - net_collected (logs w)) ∧
  (∀ caller to amountWei r w',
     withdraw caller to amountWei w = (r, w') ->
     balanceOf w' (this w') - net_collected (logs w') =
       balanceOf w (this w) - net_collected (logs w)) ∧
  (∀ caller newPrice r w',
     setPricePerTokenWei caller newPrice w = (r, w') ->
     balanceOf w' (this w') - net_collected (logs w') =
       balanceOf w (this w) - net_collected (logs w)).
Proof.
  intros Hreach Hnoreceive.
  pose proof (reachable_inv w Hreach) as Hinv.
  split; [|split].
  - intros msg amount r w' Hmsg Ha.
    destruct (inv_stock w Hinv) as (b & Hb & Hstock).
    rewrite (buy_run w msg amount b) by done.
    destruct (amount =? 0); [by intros [= _ <-]|].
    destruct (_ <? amount); [by intros [= _ <-]|].
    destruct (quote _ _) as [q|e]; [|by intros [= _ <-]].
    destruct (value msg <? q) eqn:Ev; [by intros [= _ <-]|].
    destruct (_ && _); [by intros [= _ <-]|].
    intros [= _ <-]. apply Z.ltb_ge in Ev.
    rewrite this_buy_done, balanceOf_buy_done by done.
    destruct Hmsg as (_ & Hne & _ & _).
    rewrite decide_False, decide_True by done.
    assert (Hlogs : logs (buy_done msg amount q w) =
              logs w ++ [ConfidentialTransfer (this w) (sender msg)
                           (Some (moved_amount amount b));
                         TokenPurchased (sender msg) amount q (value msg)]).
    { unfold buy_done, buy_settled, buy_entered. rewrite Hb.
      destruct (0 <? value msg - q); cbn; by rewrite <- app_assoc. }
    rewrite Hlogs, net_collected_app. cbn. lia.
  - intros caller to amountWei r w'.
    rewrite withdraw_run by apply Hinv.
    destruct (negb _); [by intros [= _ <-]|].
    destruct (_ || _); [by intros [= _ <-]|].
    destruct (_ <? amountWei); [by intros [= _ <-]|].
    destruct (accepts w to) eqn:Hacc; [|by intros [= _ <-]].
    intros [= _ <-].
    assert (Hto : to ≠ this w) by (intros ->; congruence).
    cbn [this with_storage push_log move_value logs].
    rewrite balanceOf_with_storage, balanceOf_push_log, balanceOf_move_value,
      balanceOf_with_storage.
    cbn [this with_storage].
    rewrite decide_True, decide_False by done.
    rewrite net_collected_app. cbn. lia.
  - intros caller newPrice r w'. rewrite setPricePerTokenWei_run.
    destruct (bool_decide _); intros [= _ <-]; [|done].
    cbn [this with_storage push_log logs].
    rewrite balanceOf_with_storage, balanceOf_push_log, net_collected_app. cbn. lia.
Qed.

Lemma sealed_sale_world_reachable : reachable sealed_sale_world.
Proof.
  eapply (reach_deploy 100%N _ _ "MyToken" "MTK" 10000000 1000000000000000 "" 5%N);
    [| | |unfold sealed_sale_world; apply surjective_pairing]; by vm_compute.
Qed.

(** One purchase of 0.002 ether: the ledger holds 0.002 ether more and the
    events say so. *)
Lemma events_account_for_value_witness :
  balanceOf sealed_funded_world (this sealed_funded_world) -
    net_collected (logs sealed_funded_world) =
  balanceOf sealed_sale_world (this sealed_sale_world) -
    net_collected (logs sealed_sale_world).
Proof.
  assert (Hseal : accepts sealed_sale_world (this sealed_sale_world) = false)
    by (by vm_compute).
  assert (Hmsg : valid_msg sealed_sale_world (mkMsg 7%N 2000000000000000))
    by (by vm_compute).
  assert (Ha : is_uint64 2000000) by (by vm_compute).
  assert (Hbuy : buy (mkMsg 7%N 2000000000000000) 2000000 sealed_sale_world =
                 (Return (Some 2000000), sealed_funded_world)) by (by vm_compute).
  destruct (events_account_for_value sealed_sale_world sealed_sale_world_reachable Hseal)
    as [H _].
  exact (H _ _ _ _ Hmsg Ha Hbuy).
Defined.
